(** * Teamtailor CSV exporter: a shallow embedding of [src/teamtailor.ts]

    The development follows the source file top to bottom: JavaScript
    strings and values, the JSON:API data model, the page fetcher with
    its retry loop, the pagination driver, the relationship flattener
    and the CSV encoder.  Effects (HTTP requests, [sleep], [console.log])
    are made explicit: a computation reads the number of requests the
    upstream service has already answered, and writes the events it
    performs, in order. *)

From Stdlib Require Import String Ascii DecimalN.
From stdpp Require Import gmap list.

Local Open Scope N_scope.

(** ** JavaScript strings and values *)

Module Js.

(** A JavaScript string is a sequence of UTF-16 code units.  Code units
    are kept as [N]; a literal of the source is written [lit "..."]. *)
Abbreviation jsstring := (list N).

Definition lit (s : string) : jsstring :=
  map N_of_ascii (list_ascii_of_string s).

(** [String.fromCharCode(34)], [String.fromCharCode(10)],
    [String.fromCharCode(0xfeff)] and the comma. *)
Definition DQUOTE : N := 34.
Definition NEWLINE : N := 10.
Definition BOM : N := 0xfeff.
Definition COMMA : N := 44.

(** The values a loosely typed JSON field can hold as far as the
    program distinguishes them: missing ([undefined]), [null], or a
    string. *)
Inductive jsval : Type :=
| JUndefined
| JNull
| JString (s : jsstring).

(** Truthiness: [undefined], [null] and the empty string are falsy. *)
Definition truthy (v : jsval) : bool :=
  match v with
  | JString (_ :: _) => true
  | _ => false
  end.

(** [v || d] where [d] is a string and the result is used as a string. *)
Definition or_else (v : jsval) (d : jsstring) : jsstring :=
  match v with
  | JString s => if truthy v then s else d
  | _ => d
  end.

(** [str.indexOf(c)] for a one-unit needle: first position, or -1. *)
Fixpoint indexOf_from (c : N) (s : jsstring) (i : Z) : Z :=
  match s with
  | [] => (-1)%Z
  | x :: s' => if x =? c then i else indexOf_from c s' (i + 1)%Z
  end.

Definition indexOf (c : N) (s : jsstring) : Z := indexOf_from c s 0%Z.

(** [str.replace(/c/g, r)]: every occurrence of the unit, left to right. *)
Fixpoint replace_all (c : N) (r : jsstring) (s : jsstring) : jsstring :=
  match s with
  | [] => []
  | x :: s' => (if x =? c then r else [x]) ++ replace_all c r s'
  end.

(** [arr.join(sep)]. *)
Fixpoint join (sep : jsstring) (l : list jsstring) : jsstring :=
  match l with
  | [] => []
  | [x] => x
  | x :: l' => x ++ sep ++ join sep l'
  end.

(** Decimal rendering of a non-negative integer, as a template literal
    [`${n}`] prints it (below the range where JavaScript switches to
    exponent notation). *)
Fixpoint digits (u : Decimal.uint) : jsstring :=
  match u with
  | Decimal.Nil => []
  | Decimal.D0 u' => 48 :: digits u'
  | Decimal.D1 u' => 49 :: digits u'
  | Decimal.D2 u' => 50 :: digits u'
  | Decimal.D3 u' => 51 :: digits u'
  | Decimal.D4 u' => 52 :: digits u'
  | Decimal.D5 u' => 53 :: digits u'
  | Decimal.D6 u' => 54 :: digits u'
  | Decimal.D7 u' => 55 :: digits u'
  | Decimal.D8 u' => 56 :: digits u'
  | Decimal.D9 u' => 57 :: digits u'
  end.

Definition decimal (n : N) : jsstring := digits (N.to_uint n).

End Js.

Import Js.

(** ** Data model (the interfaces of the source) *)

Record CandidateAttributes := {
  attr_first_name : jsval;   (* attributes["first-name"] *)
  attr_last_name : jsval;    (* attributes["last-name"] *)
  attr_email : jsval         (* attributes.email *)
}.

Record JobApplicationAttributes := {
  attr_created_at : jsval    (* attributes["created-at"] *)
}.

Record ResourceRef := {
  ref_id : jsstring;
  ref_type : jsstring
}.

(** [Relationship.data]: an array of references, or one reference. *)
Inductive RelationshipData :=
| RefArray (refs : list ResourceRef)
| RefSingle (ref : ResourceRef).

Record Relationship := {
  rel_data : RelationshipData
}.

Record Relationships := {
  rel_job_applications : option Relationship   (* ["job-applications"]? *)
}.

Record Candidate := {
  cand_id : jsstring;
  cand_type : jsstring;
  cand_attributes : CandidateAttributes;
  cand_relationships : option Relationships
}.

Record JobApplication := {
  ja_id : jsstring;
  ja_type : jsstring;
  ja_attributes : JobApplicationAttributes
}.

Record Links := {
  links_next : jsval
}.

Record Meta := {
  meta_record_count : option N;
  meta_page_count : option N
}.

Record ApiResponse := {
  resp_data : list Candidate;
  resp_included : option (list JobApplication);
  resp_links : option Links;
  resp_meta : option Meta
}.

Record CsvRow := {
  candidate_id : jsstring;
  first_name : jsstring;
  last_name : jsstring;
  email : jsstring;
  job_application_id : jsstring;
  job_application_created_at : jsstring
}.

Definition BASE_URL : jsstring := lit "https://api.teamtailor.com/v1".
Definition PAGE_SIZE : N := 30.
Definition MAX_RETRIES : nat := 3.

(** ** Relationship flattener *)

(** [candidate.relationships?.["job-applications"]?.data] *)
Definition jobAppRefs_of (candidate : Candidate) : option RelationshipData :=
  rel ← cand_relationships candidate;
  jobAppRel ← rel_job_applications rel;
  Some (rel_data jobAppRel).

(** [jobApp?.attributes["created-at"] || ""] *)
Definition created_at_of (jobApp : option JobApplication) : jsstring :=
  match jobApp with
  | Some ja => or_else (attr_created_at (ja_attributes ja)) []
  | None => []
  end.

Definition parseCandidateToRows
    (candidate : Candidate) (jobAppsMap : gmap (list N) JobApplication)
    : list CsvRow :=
  let attrs := cand_attributes candidate in
  let candidateId := cand_id candidate in
  let firstName := or_else (attr_first_name attrs) [] in
  let lastName := or_else (attr_last_name attrs) [] in
  let email_ := or_else (attr_email attrs) [] in
  let placeholder :=
    [ {| candidate_id := candidateId;
         first_name := firstName;
         last_name := lastName;
         email := email_;
         job_application_id := [];
         job_application_created_at := [] |} ] in
  match jobAppRefs_of candidate with
  | Some (RefArray jobAppRefs) =>
      if (0 <? length jobAppRefs)%nat then
        map (fun ref =>
               let jobApp := jobAppsMap !! ref_id ref in
               {| candidate_id := candidateId;
                  first_name := firstName;
                  last_name := lastName;
                  email := email_;
                  job_application_id := ref_id ref;
                  job_application_created_at := created_at_of jobApp |})
            jobAppRefs
      else placeholder
  | _ => placeholder
  end.

(** ** Effects: requests, waits and log lines

    The only state the program shares with its environment is the
    upstream service.  A computation is run from the number of requests
    the service has answered so far; it yields a completion (a value or
    a thrown error), the new request count, and the events it performed
    in program order. *)

Inductive error : Type :=
| Error (message : jsstring).

Inductive completion (A : Type) : Type :=
| Return (a : A)
| Throw (e : error).
Arguments Return {A} a.
Arguments Throw {A} e.

Inductive event : Type :=
| EvLog (line : jsstring)                                     (* console.log *)
| EvSleep (ms : N)                                            (* await sleep(ms) *)
| EvRequest (url : jsstring) (headers : list (jsstring * jsstring)).  (* nodeFetch *)

Record Response := {
  status : N;
  json : ApiResponse     (* the parsed body, [await response.json()] *)
}.

(** [response.ok] of the fetch API: the status is in the range 200-299. *)
Definition ok (response : Response) : bool :=
  (200 <=? status response) && (status response <=? 299).

Definition Comp (A : Type) : Type := nat -> completion A * nat * list event.

Definition ret {A} (a : A) : Comp A := fun n => (Return a, n, []).

Definition throw {A} (e : error) : Comp A := fun n => (Throw e, n, []).

Definition bind {A B} (m : Comp A) (f : A -> Comp B) : Comp B :=
  fun n =>
    match m n with
    | (Return a, n', evs) =>
        let '(r, n'', evs') := f a n' in (r, n'', evs ++ evs')
    | (Throw e, n', evs) => (Throw e, n', evs)
    end.

Definition emit (e : event) : Comp unit := fun n => (Return tt, n, [e]).

Declare Scope comp_scope.
Delimit Scope comp_scope with comp.
Notation "x <- m ;; k" := (bind m (fun x => k))
  (at level 100, m at next level, right associativity) : comp_scope.
Notation "m ;; k" := (bind m (fun _ => k))
  (at level 100, right associativity) : comp_scope.

(** The sleeps and the requests of a trace, in order. *)
Definition sleeps (evs : list event) : list N :=
  omap (fun e => match e with EvSleep ms => Some ms | _ => None end) evs.

Definition requests (evs : list event) : list jsstring :=
  omap (fun e => match e with EvRequest url _ => Some url | _ => None end) evs.

(** The error values of the source, under the names the specification
    gives them. *)
Definition RateLimitExceeded : error := Error (lit "Rate limited").
Definition InvalidCredential : error := Error (lit "Invalid API key").
Definition AccessDenied : error := Error (lit "Access denied").
Definition UpstreamError (st : N) : error :=
  Error (lit "API error: " ++ decimal st).

(** [data.links && data.links.next] *)
Definition has_next (data : ApiResponse) : bool :=
  match resp_links data with
  | Some links => truthy (links_next links)
  | None => false
  end.

(** The lookup map of one page: [included] entries of type
    "job-applications", keyed by id; [Map.set] overwrites. *)
Definition build_jobAppsMap (data : ApiResponse) : gmap (list N) JobApplication :=
  match resp_included data with
  | Some included =>
      fold_left
        (fun (m : gmap (list N) JobApplication) resource =>
           if decide (ja_type resource = lit "job-applications")
           then <[ja_id resource := resource]> m
           else m)
        included ∅
  | None => ∅
  end.

(** The two nested [forEach] loops pushing onto [allRows]. *)
Definition push_page_rows (data : ApiResponse) (allRows : list CsvRow) : list CsvRow :=
  let jobAppsMap := build_jobAppsMap data in
  fold_left
    (fun acc candidate =>
       fold_left (fun acc' row => acc' ++ [row])
                 (parseCandidateToRows candidate jobAppsMap) acc)
    (resp_data data) allRows.

(** The total-page estimate, used for the progress label only.
    [Math.ceil(record_count / PAGE_SIZE)] is taken on non-negative
    integers, with the exact quotient: that is what the division of
    doubles gives for counts up to [MAX_SAFE_INTEGER] and not beyond. *)
Definition update_totalPages (totalPages : option N) (data : ApiResponse) : option N :=
  match totalPages, resp_meta data with
  | None, Some meta =>
      match meta_record_count meta with
      | Some rc =>
          if negb (rc =? 0) then Some ((rc + PAGE_SIZE - 1) / PAGE_SIZE)
          else match meta_page_count meta with
               | Some pc => if negb (pc =? 0) then Some pc else None
               | None => None
               end
      | None =>
          match meta_page_count meta with
          | Some pc => if negb (pc =? 0) then Some pc else None
          | None => None
          end
      end
  | _, _ => totalPages
  end.

Definition page_label (currentPage : N) (totalPages : option N) : jsstring :=
  match totalPages with
  | Some tp =>
      if negb (tp =? 0) then decimal currentPage ++ lit "/" ++ decimal tp
      else decimal currentPage
  | None => decimal currentPage
  end.

Definition page_url (pageNumber : N) : jsstring :=
  BASE_URL ++ lit "/candidates"
    ++ lit "?include=job-applications"
    ++ lit "&page[size]=" ++ decimal PAGE_SIZE
    ++ lit "&page[number]=" ++ decimal pageNumber.

Definition request_headers (apiKey : jsstring) : list (jsstring * jsstring) :=
  [ (lit "Authorization", lit "Token token=" ++ apiKey);
    (lit "X-Api-Version", lit "20210218");
    (lit "Content-Type", lit "application/vnd.api+json") ].

(** [Math.pow(2, attempt - 1) * 1000], for [attempt > 0]. *)
Definition retry_delay (attempt : nat) : N :=
  2 ^ N.of_nat (attempt - 1) * 1000.

(** What one iteration of the pagination loop ends in. *)
Inductive iteration : Type :=
| Continue (allRows : list CsvRow) (currentPage : N) (totalPages : option N)
| Break (allRows : list CsvRow).

Section Upstream.

(** The upstream service: the response to the [n]-th request (counting
    from 0) the service receives, given its URL and headers.  Here every
    request is sent and answered, and the body of every answer parses;
    the calls of [nodeFetch] and [response.json()] that throw are those
    of [fetch_raw] and [attempt_loop_raw]. *)
Variable nodeFetch : nat -> jsstring -> list (jsstring * jsstring) -> Response.

Definition fetch (url : jsstring) (headers : list (jsstring * jsstring)) : Comp Response :=
  fun n => (Return (nodeFetch n url headers), S n, [EvRequest url headers]).

(** The [for] loop of [fetchCandidatesPage], entered with
    [remaining = MAX_RETRIES + 1 - attempt] iterations still allowed by
    its condition [attempt <= MAX_RETRIES]. *)
Fixpoint attempt_loop (remaining : nat) (attempt : nat) (lastError : option error)
    (apiKey : jsstring) (url : jsstring) : Comp ApiResponse :=
  match remaining with
  | O =>
      throw (default (Error (lit "Max retries exceeded")) lastError)
  | S remaining' =>
      (_ <- (if (0 <? attempt)%nat then
               let delay := retry_delay attempt in
               (emit (EvLog (lit "  Rate limited, waiting "
                               ++ decimal (delay / 1000) ++ lit "s..."));;
                emit (EvSleep delay))
             else ret tt);;
       response <- fetch url (request_headers apiKey);;
       if status response =? 429 then
         attempt_loop remaining' (S attempt) (Some (Error (lit "Rate limited")))
                      apiKey url
       else if negb (ok response) then
         if status response =? 401 then throw (Error (lit "Invalid API key"))
         else if status response =? 403 then throw (Error (lit "Access denied"))
         else throw (Error (lit "API error: " ++ decimal (status response)))
       else ret (json response))%comp
  end.

Definition fetchCandidatesPage (apiKey : jsstring) (pageNumber : N) : Comp ApiResponse :=
  attempt_loop (S MAX_RETRIES) 0 None apiKey (page_url pageNumber).

(** One iteration of the [while (true)] loop of [fetchAllCandidates]. *)
Definition loop_body (apiKey : jsstring)
    (allRows : list CsvRow) (currentPage : N) (totalPages : option N)
    : Comp iteration :=
  (_ <- emit (EvLog (lit "  Fetching page "
                       ++ page_label currentPage totalPages ++ lit "..."));;
   data <- fetchCandidatesPage apiKey currentPage;;
   let totalPages' := update_totalPages totalPages data in
   let allRows' := push_page_rows data allRows in
   if has_next data then ret (Continue allRows' (currentPage + 1) totalPages')
   else ret (Break allRows'))%comp.

(** The loop itself has no bound in the source; [fuel] bounds the number
    of iterations the model runs, and [None] means the bound was hit. *)
Fixpoint fetchAll_loop (fuel : nat) (apiKey : jsstring)
    (allRows : list CsvRow) (currentPage : N) (totalPages : option N)
    (n : nat) : option (completion (list CsvRow) * nat * list event) :=
  match fuel with
  | O => None
  | S fuel' =>
      match loop_body apiKey allRows currentPage totalPages n with
      | (Throw e, n', evs) => Some (Throw e, n', evs)
      | (Return (Break rows), n', evs) => Some (Return rows, n', evs)
      | (Return (Continue rows page total), n', evs) =>
          match fetchAll_loop fuel' apiKey rows page total n' with
          | Some (r, n'', evs') => Some (r, n'', evs ++ evs')
          | None => None
          end
      end
  end.

Definition fetchAllCandidates (fuel : nat) (apiKey : jsstring) (n : nat)
    : option (completion (list CsvRow) * nat * list event) :=
  fetchAll_loop fuel apiKey [] 1 None n.

(** The response to the request the fetcher sends for a page when it is
    the [n]-th request the service receives. *)
Definition answer (apiKey : jsstring) (pageNumber : N) (n : nat) : Response :=
  nodeFetch n (page_url pageNumber) (request_headers apiKey).

(** The pages the fetcher hands to the driver, starting at page number
    [p] with [n] requests already answered, and the events of each
    fetch: every page but the last carries a continuation cursor, the
    last one does not. *)
Inductive serves_pages (apiKey : jsstring)
    : N -> nat -> list ApiResponse -> list (list event) -> nat -> Prop :=
| serves_last p n d n' evs :
    fetchCandidatesPage apiKey p n = (Return d, n', evs) ->
    has_next d = false ->
    serves_pages apiKey p n [d] [evs] n'
| serves_more p n d n' evs ds evss n'' :
    fetchCandidatesPage apiKey p n = (Return d, n', evs) ->
    has_next d = true ->
    serves_pages apiKey (p + 1) n' ds evss n'' ->
    serves_pages apiKey p n (d :: ds) (evs :: evss) n''.

End Upstream.

(** ** CSV encoder *)

Definition headers : list jsstring :=
  [ lit "candidate_id"; lit "first_name"; lit "last_name"; lit "email";
    lit "job_application_id"; lit "job_application_created_at" ].

(** [row[h as keyof CsvRow]] *)
Definition row_get (row : CsvRow) (h : jsstring) : jsval :=
  if decide (h = lit "candidate_id") then JString (candidate_id row)
  else if decide (h = lit "first_name") then JString (first_name row)
  else if decide (h = lit "last_name") then JString (last_name row)
  else if decide (h = lit "email") then JString (email row)
  else if decide (h = lit "job_application_id") then JString (job_application_id row)
  else if decide (h = lit "job_application_created_at")
       then JString (job_application_created_at row)
  else JUndefined.

(** [String(field == null ? "" : field)] *)
Definition to_str (field : jsval) : jsstring :=
  match field with
  | JUndefined | JNull => []
  | JString s => s
  end.

Definition needs_quotes (str : jsstring) : bool :=
  negb (indexOf COMMA str =? -1)%Z
  || negb (indexOf DQUOTE str =? -1)%Z
  || negb (indexOf NEWLINE str =? -1)%Z.

Definition escapeField (field : jsval) : jsstring :=
  let str := to_str field in
  if needs_quotes str then
    [DQUOTE] ++ replace_all DQUOTE ([DQUOTE] ++ [DQUOTE]) str ++ [DQUOTE]
  else str.

Definition row_line (row : CsvRow) : jsstring :=
  join (lit ",") (map (fun h => escapeField (row_get row h)) headers).

Definition csvLines (rows : list CsvRow) : list jsstring :=
  fold_left (fun lines row => lines ++ [row_line row]) rows
            [join (lit ",") headers].

Definition convertToCSV (rows : list CsvRow) : jsstring :=
  [BOM] ++ join [NEWLINE] (csvLines rows).

(** ** Reference notions the statements compare the code with *)

(** A missing attribute: [undefined] or [null]. *)
Definition absent (v : jsval) : bool :=
  match v with
  | JUndefined | JNull => true
  | JString _ => false
  end.

(** The text an attribute holds; nothing when it is missing. *)
Definition attr_text (v : jsval) : jsstring :=
  match v with
  | JString s => s
  | _ => []
  end.

(** The same candidate with its [relationships] member left out. *)
Definition without_relationships (candidate : Candidate) : Candidate :=
  {| cand_id := cand_id candidate;
     cand_type := cand_type candidate;
     cand_attributes := cand_attributes candidate;
     cand_relationships := None |}.

(** The row of a candidate that has no job application. *)
Definition placeholder_row (candidate : Candidate) : CsvRow :=
  {| candidate_id := cand_id candidate;
     first_name := attr_text (attr_first_name (cand_attributes candidate));
     last_name := attr_text (attr_last_name (cand_attributes candidate));
     email := attr_text (attr_email (cand_attributes candidate));
     job_application_id := [];
     job_application_created_at := [] |}.

(** The events of one pass through the retry loop: the wait that opens
    every pass but the first, then the request. *)
Definition wait_before (attempt : nat) : list event :=
  if (0 <? attempt)%nat then
    [ EvLog (lit "  Rate limited, waiting "
               ++ decimal (retry_delay attempt / 1000) ++ lit "s...");
      EvSleep (retry_delay attempt) ]
  else [].

Definition passes (apiKey url : jsstring) (attempt count : nat) : list event :=
  flat_map (fun k => wait_before k ++ [EvRequest url (request_headers apiKey)])
           (seq attempt count).

(** How a response that is not a 429 ends the call. *)
Definition settle (response : Response) : completion ApiResponse :=
  if ok response then Return (json response)
  else if status response =? 401 then Throw InvalidCredential
  else if status response =? 403 then Throw AccessDenied
  else Throw (UpstreamError (status response)).

(** The rows of one page: the flattener's output for each candidate of
    the page, in payload order, against the lookup map of that page. *)
Definition page_rows (data : ApiResponse) : list CsvRow :=
  concat (map (fun candidate => parseCandidateToRows candidate (build_jobAppsMap data))
              (resp_data data)).

(** What the lookup map of a page answers for an id: the last side-loaded
    entry of the page with that id and the type "job-applications". *)
Definition side_loaded (data : ApiResponse) (k : jsstring) : option JobApplication :=
  last (filter (fun resource =>
                  ja_type resource = lit "job-applications" /\ ja_id resource = k)
               (default [] (resp_included data))).

(** The page numbers [p, p+1, ...] of [count] consecutive pages. *)
Definition page_numbers (p : N) (count : nat) : list N :=
  map (fun i => p + N.of_nat i) (seq 0 count).

(** The log line that opens an iteration of the pagination loop. *)
Definition fetching_line (currentPage : N) (totalPages : option N) : event :=
  EvLog (lit "  Fetching page " ++ page_label currentPage totalPages ++ lit "...").

(** A unit-by-unit description of quote doubling. *)
Definition double_quotes (s : jsstring) : jsstring :=
  flat_map (fun c => if decide (c = DQUOTE) then [DQUOTE; DQUOTE] else [c]) s.

(** Reading one CSV field back, after RFC 4180.  An escaped field opens
    with a double quote and runs to the closing one, a pair of double
    quotes inside standing for one; nothing may follow the closing
    quote.  A non-escaped field holds no comma, double quote, carriage
    return or line feed and stands for itself.  (The character ranges of
    the RFC's grammar are not enforced.) *)
Definition CR : N := 13.

Fixpoint unescape_body (s : jsstring) : option jsstring :=
  match s with
  | [] => None
  | x :: s' =>
      if x =? DQUOTE then
        match s' with
        | [] => Some []
        | y :: s'' =>
            if y =? DQUOTE then cons DQUOTE <$> unescape_body s'' else None
        end
      else cons x <$> unescape_body s'
  end.

Definition is_textdata (c : N) : bool :=
  negb (c =? COMMA) && negb (c =? DQUOTE) && negb (c =? CR) && negb (c =? NEWLINE).

Definition rfc4180_unescape (s : jsstring) : option jsstring :=
  match s with
  | x :: s' =>
      if x =? DQUOTE then unescape_body s'
      else if forallb is_textdata s then Some s else None
  | [] => Some []
  end.

(** How many times a code unit occurs in a string, and in the fields of
    a sequence of rows. *)
Definition occurrences (c : N) (s : jsstring) : nat :=
  length (filter (fun x => x = c) s).

Definition row_fields (row : CsvRow) : list jsstring :=
  [ candidate_id row; first_name row; last_name row; email row;
    job_application_id row; job_application_created_at row ].

Definition embedded (c : N) (rows : list CsvRow) : nat :=
  sum_list (map (fun row => sum_list (map (occurrences c) (row_fields row))) rows).

Definition header_line : jsstring :=
  lit "candidate_id,first_name,last_name,email,job_application_id,job_application_created_at".

(** Sample data: the two-page export of the specification's end-to-end
    example. *)
Definition sample_ref (i : string) : ResourceRef :=
  {| ref_id := lit i; ref_type := lit "job-applications" |}.

Definition sample_job_application (i created : string) : JobApplication :=
  {| ja_id := lit i;
     ja_type := lit "job-applications";
     ja_attributes := {| attr_created_at := JString (lit created) |} |}.

Definition sample_candidate_1 : Candidate :=
  {| cand_id := lit "1";
     cand_type := lit "candidates";
     cand_attributes :=
       {| attr_first_name := JString (lit "Ada");
          attr_last_name := JString (lit "Lovelace");
          attr_email := JString (lit "ada@example.com") |};
     cand_relationships :=
       Some {| rel_job_applications :=
                 Some {| rel_data := RefArray [sample_ref "a"; sample_ref "b"] |} |} |}.

Definition sample_candidate_2 : Candidate :=
  {| cand_id := lit "2";
     cand_type := lit "candidates";
     cand_attributes :=
       {| attr_first_name := JUndefined;
          attr_last_name := JNull;
          attr_email := JUndefined |};
     cand_relationships := None |}.

(** A candidate whose relationship holds one reference, not an array,
    and one whose references do not resolve. *)
Definition sample_candidate_3 : Candidate :=
  {| cand_id := lit "3";
     cand_type := lit "candidates";
     cand_attributes :=
       {| attr_first_name := JString (lit "Grace");
          attr_last_name := JString (lit "Hopper");
          attr_email := JString (lit "grace@example.com") |};
     cand_relationships :=
       Some {| rel_job_applications :=
                 Some {| rel_data := RefSingle (sample_ref "a") |} |} |}.

Definition sample_candidate_4 : Candidate :=
  {| cand_id := lit "4";
     cand_type := lit "candidates";
     cand_attributes :=
       {| attr_first_name := JUndefined;
          attr_last_name := JUndefined;
          attr_email := JNull |};
     cand_relationships :=
       Some {| rel_job_applications :=
                 Some {| rel_data := RefArray [sample_ref "zz"] |} |} |}.

Definition sample_page_1 : ApiResponse :=
  {| resp_data := [sample_candidate_1];
     resp_included :=
       Some [ sample_job_application "a" "2024-01-01";
              sample_job_application "b" "2024-01-02" ];
     resp_links := Some {| links_next := JString (lit "https://api.teamtailor.com/v1/candidates?page[number]=2") |};
     resp_meta := Some {| meta_record_count := Some 31; meta_page_count := None |} |}.

Definition sample_page_2 : ApiResponse :=
  {| resp_data := [sample_candidate_2];
     resp_included := None;
     resp_links := None;
     resp_meta := None |}.

Definition empty_page : ApiResponse :=
  {| resp_data := []; resp_included := None; resp_links := None; resp_meta := None |}.

(** A text with a comma, double quotes and a line feed in it. *)
Definition sample_text : jsstring :=
  lit "say " ++ [DQUOTE] ++ lit "hi" ++ [DQUOTE] ++ lit ", then" ++ [NEWLINE] ++ lit "leave".

(** A service that answers the [n]-th request with the [n]-th entry of a
    script, and with a server error once the script is over. *)
Definition scripted (script : list Response)
    (n : nat) (url : jsstring) (hs : list (jsstring * jsstring)) : Response :=
  default {| status := 500; json := empty_page |} (script !! n).

Definition rate_limited : Response := {| status := 429; json := empty_page |}.

Definition served (data : ApiResponse) : Response := {| status := 200; json := data |}.

(** ** The request handler and the [.env] loader of [src/server.ts] *)

(** [str.split(c)] for a one-unit separator: never an empty array. *)
Fixpoint split (c : N) (s : jsstring) : list jsstring :=
  match s with
  | [] => [[]]
  | x :: s' =>
      if x =? c then [] :: split c s'
      else match split c s' with
           | l :: ls => (x :: l) :: ls
           | [] => [[x]]
           end
  end.

(** White space and line terminators of ECMAScript, the units
    [String.prototype.trim] removes. *)
Definition is_whitespace (c : N) : bool :=
  (c =? 0x9) || (c =? 0xA) || (c =? 0xB) || (c =? 0xC) || (c =? 0xD)
  || (c =? 0x20) || (c =? 0xA0) || (c =? 0x1680)
  || ((0x2000 <=? c) && (c <=? 0x200A))
  || (c =? 0x2028) || (c =? 0x2029) || (c =? 0x202F) || (c =? 0x205F)
  || (c =? 0x3000) || (c =? 0xFEFF).

Fixpoint trimStart (s : jsstring) : jsstring :=
  match s with
  | [] => []
  | x :: s' => if is_whitespace x then trimStart s' else s
  end.

Fixpoint trimEnd (s : jsstring) : jsstring :=
  match s with
  | [] => []
  | x :: s' =>
      match trimEnd s' with
      | [] => if is_whitespace x then [] else [x]
      | t => x :: t
      end
  end.

Definition trim (s : jsstring) : jsstring := trimStart (trimEnd s).

(** [str.startsWith(c)] for a one-unit prefix. *)
Definition startsWith (c : N) (s : jsstring) : bool :=
  match s with
  | x :: _ => x =? c
  | [] => false
  end.

Definition EQUALS : N := 61.
Definition HASH : N := 35.

(** The callback of the [forEach] over the lines of [.env], on
    [process.env], taken as a map of whole strings: that is the real one
    for names and values without a [NUL] unit, at which the operating
    system cuts them. *)
Definition env_line (env : gmap (list N) (list N)) (line : jsstring)
    : gmap (list N) (list N) :=
  let eqIndex := indexOf EQUALS line in
  if (eqIndex =? -1)%Z then env
  else
    let key := trim (take (Z.to_nat eqIndex) line) in
    let val := trim (drop (Z.to_nat (eqIndex + 1)) line) in
    if negb (bool_decide (key = [])) && negb (startsWith HASH key)
    then <[key := val]> env
    else env.

(** The [try] block that loads [.env]; [None] is a file that cannot be
    read, which the empty [catch] swallows. *)
Definition loadEnv (file : option jsstring) (env : gmap (list N) (list N))
    : gmap (list N) (list N) :=
  match file with
  | Some envContent => fold_left env_line (split NEWLINE envContent) env
  | None => env
  end.


(** What the handler writes besides the events of the export itself:
    [console.error] with its two arguments. *)
Inductive server_event : Type :=
| Core (e : event)
| ConsoleError (label message : jsstring).

Inductive reply_body : Type :=
| JsonError (error_message : jsstring)      (* res.json({ error: ... }) *)
| Sent (text : jsstring).                   (* res.send(csv) *)

(** The reply: the status ([200] unless [res.status] sets it), the
    headers set with [res.setHeader], in order, and the body. *)
Record Reply := {
  reply_status : N;
  reply_headers : list (jsstring * jsstring);
  reply_body_of : reply_body
}.

(** [req.headers["x-api-key"] || API_KEY] *)
Definition request_key (header : jsval) (API_KEY : option jsstring) : option jsstring :=
  if truthy header then
    match header with JString s => Some s | _ => API_KEY end
  else API_KEY.

(** [!apiKey || apiKey === "your_api_key_here"] *)
Definition key_missing (apiKey : option jsstring) : bool :=
  match apiKey with
  | None => true
  | Some [] => true
  | Some k => bool_decide (k = lit "your_api_key_here")
  end.

Section Handler.

Variable nodeFetch : nat -> jsstring -> list (jsstring * jsstring) -> Response.

(** The handler of [GET /api/export].  [header] is the request's
    [x-api-key] header, [API_KEY] the key read at start-up, [now] the
    value of [new Date().toISOString()]; [fuel] and [n] are those of the
    pagination loop. *)
Definition export_handler (fuel : nat) (header : jsval) (API_KEY : option jsstring)
    (now : jsstring) (n : nat) : option (Reply * nat * list server_event) :=
  let apiKey := request_key header API_KEY in
  if key_missing apiKey then
    Some ({| reply_status := 400;
             reply_headers := [];
             reply_body_of :=
               JsonError (lit "Missing API key. Set TEAMTAILOR_API_KEY in .env or send x-api-key header.") |},
          n, [])
  else
    match fetchAllCandidates nodeFetch fuel (default [] apiKey) n with
    | None => None
    | Some (Return rows, n', evs) =>
        let csv := convertToCSV rows in
        let today := take 10 now in
        let filename := lit "teamtailor-candidates-" ++ today ++ lit ".csv" in
        Some ({| reply_status := 200;
                 reply_headers :=
                   [ (lit "Content-Type", lit "text/csv; charset=utf-8");
                     (lit "Content-Disposition",
                      lit "attachment; filename=" ++ [DQUOTE] ++ filename ++ [DQUOTE]) ];
                 reply_body_of := Sent csv |},
              n',
              [Core (EvLog (lit "[Export] Fetching candidates..."))]
                ++ map Core evs
                ++ [Core (EvLog (lit "[Export] Got "
                                   ++ decimal (N.of_nat (length rows))
                                   ++ lit " rows. Generating CSV..."));
                    Core (EvLog (lit "[Export] CSV sent: " ++ filename))])
    | Some (Throw (Error errorMessage), n', evs) =>
        Some ({| reply_status := 500;
                 reply_headers := [];
                 reply_body_of := JsonError errorMessage |},
              n',
              [Core (EvLog (lit "[Export] Fetching candidates..."))]
                ++ map Core evs
                ++ [ConsoleError (lit "[Export] Error:") errorMessage])
    end.


End Handler.

(** The requests of the handler's trace, with their headers. *)
Definition sent_requests (evs : list server_event)
    : list (jsstring * list (jsstring * jsstring)) :=
  omap (fun e => match e with
                 | Core (EvRequest url hs) => Some (url, hs)
                 | _ => None
                 end) evs.

(** A trace without its log lines. *)
Definition quiet (evs : list event) : list event :=
  omap (fun e => match e with EvLog _ => None | _ => Some e end) evs.

(** The number of rows a candidate gives. *)
Definition rows_of_candidate (candidate : Candidate) : nat :=
  match jobAppRefs_of candidate with
  | Some (RefArray refs) => Nat.max 1 (length refs)
  | _ => 1
  end.

(** ** Reading a CSV document back

    A lenient reader of CSV with the line feed as record separator:
    fields are separated by commas, records by line feeds; a field that
    opens with a double quote runs to its closing quote, a pair of
    double quotes inside standing for one, and may hold commas and line
    feeds; a double quote elsewhere is an error.  A leading byte-order
    mark is skipped.  Unlike RFC 4180 it takes a carriage return in a
    field that is not quoted as data; [rfc_run] is the strict reader. *)
Inductive csv_state : Type :=
| FieldStart    (* at the start of a field *)
| Plain         (* inside a plain field, after its first unit *)
| Quoted        (* inside a quoted field *)
| AfterQuote.   (* just after a double quote inside a quoted field *)

Fixpoint csv_run (st : csv_state) (cur : jsstring) (rec : list jsstring)
    (recs : list (list jsstring)) (s : jsstring) : option (list (list jsstring)) :=
  match s with
  | [] =>
      match st with
      | Quoted => None
      | _ => Some (recs ++ [rec ++ [cur]])
      end
  | c :: s' =>
      match st with
      | FieldStart | Plain =>
          if c =? DQUOTE then
            match st with
            | FieldStart => csv_run Quoted [] rec recs s'
            | _ => None
            end
          else if c =? COMMA then csv_run FieldStart [] (rec ++ [cur]) recs s'
          else if c =? NEWLINE then csv_run FieldStart [] [] (recs ++ [rec ++ [cur]]) s'
          else csv_run Plain (cur ++ [c]) rec recs s'
      | Quoted =>
          if c =? DQUOTE then csv_run AfterQuote cur rec recs s'
          else csv_run Quoted (cur ++ [c]) rec recs s'
      | AfterQuote =>
          if c =? DQUOTE then csv_run Quoted (cur ++ [DQUOTE]) rec recs s'
          else if c =? COMMA then csv_run FieldStart [] (rec ++ [cur]) recs s'
          else if c =? NEWLINE then csv_run FieldStart [] [] (recs ++ [rec ++ [cur]]) s'
          else None
      end
  end.

Definition parse_csv (doc : jsstring) : option (list (list jsstring)) :=
  match doc with
  | c :: s => if c =? BOM then csv_run FieldStart [] [] [] s
              else csv_run FieldStart [] [] [] doc
  | [] => csv_run FieldStart [] [] [] []
  end.

(** What is left to read once a field is complete. *)
Definition csv_continue (field : jsstring) (rec : list jsstring)
    (recs : list (list jsstring)) (rest : jsstring) : option (list (list jsstring)) :=
  match rest with
  | [] => Some (recs ++ [rec ++ [field]])
  | c :: r =>
      if c =? COMMA then csv_run FieldStart [] (rec ++ [field]) recs r
      else csv_run FieldStart [] [] (recs ++ [rec ++ [field]]) r
  end.

(** A remainder that ends the field before it. *)
Definition ends_field (rest : jsstring) : Prop :=
  match rest with
  | [] => True
  | c :: _ => c = COMMA \/ c = NEWLINE
  end.

(** One record, encoded as the encoder does a row. *)
Definition encode_record (fields : list jsstring) : jsstring :=
  join (lit ",") (map (fun f => escapeField (JString f)) fields).

(** More sample data. *)
Definition always_more : nat -> jsstring -> list (jsstring * jsstring) -> Response :=
  fun _ _ _ => served sample_page_1.

Definition sample_env_file : jsstring :=
  lit "# settings" ++ [NEWLINE] ++ lit "PORT = 8080 " ++ [13; NEWLINE]
    ++ lit "TEAMTAILOR_API_KEY=abc=def" ++ [NEWLINE] ++ lit "broken line".

Definition sample_row : CsvRow :=
  {| candidate_id := lit "7"; first_name := sample_text; last_name := lit "O,Neil";
     email := []; job_application_id := lit "a"; job_application_created_at := [] |}.

(** The same text with every line feed preceded by a carriage return. *)
Definition crlf (s : jsstring) : jsstring :=
  flat_map (fun c => if c =? NEWLINE then [CR; NEWLINE] else [c]) s.

(** Text put in front of the first line of a split text. *)
Definition prepend_line (pre : jsstring) (lines : list jsstring) : list jsstring :=
  match lines with
  | l :: ls => (pre ++ l) :: ls
  | [] => [pre]
  end.

Definition placeholder_key : jsstring := lit "your_api_key_here".

(** An event that, if it is a request, asks for a page with the given
    key in its headers. *)
Definition asks_with (apiKey : jsstring) (e : event) : Prop :=
  match e with
  | EvRequest url hs => hs = request_headers apiKey /\ exists q : N, url = page_url q
  | _ => True
  end.

Definition missing_key_reply : Reply :=
  {| reply_status := 400;
     reply_headers := [];
     reply_body_of :=
       JsonError (lit "Missing API key. Set TEAMTAILOR_API_KEY in .env or send x-api-key header.") |}.

(** ** The document as lines

    The lines of a text are what [split] at the line feed gives.  The
    record lines of a CSV text are counted at the line feeds outside
    double-quoted fields only: the flag tells whether the text read so
    far has left a quoted field open. *)
Fixpoint record_breaks (quoted : bool) (s : jsstring) : nat :=
  match s with
  | [] => 0
  | c :: s' =>
      if c =? DQUOTE then record_breaks (negb quoted) s'
      else if (c =? NEWLINE) && negb quoted then S (record_breaks quoted s')
      else record_breaks quoted s'
  end.

Definition record_lines (doc : jsstring) : nat := S (record_breaks false doc).

(** A row with a line feed in a field, and one with a bare carriage
    return in a field. *)
Definition newline_row : CsvRow :=
  {| candidate_id := lit "1"; first_name := lit "a" ++ [NEWLINE] ++ lit "b";
     last_name := []; email := []; job_application_id := [];
     job_application_created_at := [] |}.

Definition cr_row : CsvRow :=
  {| candidate_id := lit "1"; first_name := lit "a" ++ [CR] ++ lit "b";
     last_name := []; email := []; job_application_id := [];
     job_application_created_at := [] |}.

(** ** A strict reader

    The reader of RFC 4180 documents with the line feed as record
    separator: as [csv_run], but a carriage return in a field that is
    not quoted is an error, as a comma, a line feed and a double quote
    are in the grammar of a non-escaped field.  (The character ranges
    of the RFC are not enforced.) *)
Fixpoint rfc_run (st : csv_state) (cur : jsstring) (rec : list jsstring)
    (recs : list (list jsstring)) (s : jsstring) : option (list (list jsstring)) :=
  match s with
  | [] =>
      match st with
      | Quoted => None
      | _ => Some (recs ++ [rec ++ [cur]])
      end
  | c :: s' =>
      match st with
      | FieldStart | Plain =>
          if c =? DQUOTE then
            match st with
            | FieldStart => rfc_run Quoted [] rec recs s'
            | _ => None
            end
          else if c =? COMMA then rfc_run FieldStart [] (rec ++ [cur]) recs s'
          else if c =? NEWLINE then rfc_run FieldStart [] [] (recs ++ [rec ++ [cur]]) s'
          else if c =? CR then None
          else rfc_run Plain (cur ++ [c]) rec recs s'
      | Quoted =>
          if c =? DQUOTE then rfc_run AfterQuote cur rec recs s'
          else rfc_run Quoted (cur ++ [c]) rec recs s'
      | AfterQuote =>
          if c =? DQUOTE then rfc_run Quoted (cur ++ [DQUOTE]) rec recs s'
          else if c =? COMMA then rfc_run FieldStart [] (rec ++ [cur]) recs s'
          else if c =? NEWLINE then rfc_run FieldStart [] [] (recs ++ [rec ++ [cur]]) s'
          else None
      end
  end.

Definition rfc4180_read (doc : jsstring) : option (list (list jsstring)) :=
  match doc with
  | c :: s => if c =? BOM then rfc_run FieldStart [] [] [] s
              else rfc_run FieldStart [] [] [] doc
  | [] => rfc_run FieldStart [] [] [] []
  end.

Definition rfc_continue (field : jsstring) (rec : list jsstring)
    (recs : list (list jsstring)) (rest : jsstring) : option (list (list jsstring)) :=
  match rest with
  | [] => Some (recs ++ [rec ++ [field]])
  | c :: r =>
      if c =? COMMA then rfc_run FieldStart [] (rec ++ [field]) recs r
      else rfc_run FieldStart [] [] (recs ++ [rec ++ [field]]) r
  end.

(** A field the encoder leaves unquoted holds no carriage return. *)
Definition cr_is_quoted (f : jsstring) : Prop :=
  CR ∈ f -> COMMA ∈ f \/ DQUOTE ∈ f \/ NEWLINE ∈ f.

(** ** The page fetcher against a library call that can throw

    [nodeFetch] need not give a response, and [response.json()] need not
    give a page.  The library refuses some requests before anything is
    sent (a header value it rejects), which depends on the request
    alone; a request that is sent is answered with a response or fails;
    and the body of a response parses or [json()] rejects. *)
Record RawResponse := {
  raw_status : N;
  raw_json : completion ApiResponse     (* await response.json() *)
}.

Inductive fetched : Type :=
| Received (response : RawResponse)
| Failed (e : error).

Definition raw_ok (response : RawResponse) : bool :=
  (200 <=? raw_status response) && (raw_status response <=? 299).

Section RawUpstream.

(** What the library refuses outright, and what the service does with
    the [n]-th request that is sent. *)
Variable refuse : jsstring -> list (jsstring * jsstring) -> option error.
Variable service : nat -> jsstring -> list (jsstring * jsstring) -> fetched.

Definition fetch_raw (url : jsstring) (headers : list (jsstring * jsstring))
    : Comp RawResponse :=
  fun n =>
    match refuse url headers with
    | Some e => (Throw e, n, [])
    | None =>
        match service n url headers with
        | Received response => (Return response, S n, [EvRequest url headers])
        | Failed e => (Throw e, S n, [EvRequest url headers])
        end
    end.

Fixpoint attempt_loop_raw (remaining : nat) (attempt : nat) (lastError : option error)
    (apiKey : jsstring) (url : jsstring) : Comp ApiResponse :=
  match remaining with
  | O =>
      throw (default (Error (lit "Max retries exceeded")) lastError)
  | S remaining' =>
      (_ <- (if (0 <? attempt)%nat then
               let delay := retry_delay attempt in
               (emit (EvLog (lit "  Rate limited, waiting "
                               ++ decimal (delay / 1000) ++ lit "s..."));;
                emit (EvSleep delay))
             else ret tt);;
       response <- fetch_raw url (request_headers apiKey);;
       if raw_status response =? 429 then
         attempt_loop_raw remaining' (S attempt) (Some (Error (lit "Rate limited")))
                          apiKey url
       else if negb (raw_ok response) then
         if raw_status response =? 401 then throw (Error (lit "Invalid API key"))
         else if raw_status response =? 403 then throw (Error (lit "Access denied"))
         else throw (Error (lit "API error: " ++ decimal (raw_status response)))
       else (fun n => (raw_json response, n, [])))%comp
  end.

Definition fetchCandidatesPage_raw (apiKey : jsstring) (pageNumber : N)
    : Comp ApiResponse :=
  attempt_loop_raw (S MAX_RETRIES) 0 None apiKey (page_url pageNumber).

(** What the library and the service do with the page request when [n]
    requests have been sent. *)
Definition outcome (apiKey : jsstring) (pageNumber : N) (n : nat) : fetched :=
  service n (page_url pageNumber) (request_headers apiKey).

End RawUpstream.

(** How a response that is not a 429 ends the call. *)
Definition settle_raw (response : RawResponse) : completion ApiResponse :=
  if raw_ok response then raw_json response
  else if raw_status response =? 401 then Throw InvalidCredential
  else if raw_status response =? 403 then Throw AccessDenied
  else Throw (UpstreamError (raw_status response)).

(** A library that refuses nothing and a service that always answers
    with a body that parses: the upstream service of the first model. *)
Definition accepts_all : jsstring -> list (jsstring * jsstring) -> option error :=
  fun _ _ => None.

Definition always_answers
    (nodeFetch : nat -> jsstring -> list (jsstring * jsstring) -> Response)
    : nat -> jsstring -> list (jsstring * jsstring) -> fetched :=
  fun n url hs =>
    Received {| raw_status := status (nodeFetch n url hs);
                raw_json := Return (json (nodeFetch n url hs)) |}.

Definition is_rate_limited (o : fetched) : Prop :=
  match o with
  | Received response => raw_status response = 429
  | Failed _ => False
  end.

(** Sample libraries and services: a key the library refuses, and a
    success whose body is not JSON. *)
Definition refuses_all : jsstring -> list (jsstring * jsstring) -> option error :=
  fun _ _ => Some (Error (lit "Invalid character in header content"))%string.

Definition not_json : nat -> jsstring -> list (jsstring * jsstring) -> fetched :=
  fun _ _ _ => Received {| raw_status := 200;
                           raw_json := Throw (Error (lit "invalid json response body")) |}.

(** The unit at which the operating system cuts the names and values of
    the environment, and the bound below which a JSON number is an exact
    integer. *)
Definition NUL : N := 0.
Definition MAX_SAFE_INTEGER : N := 2 ^ 53 - 1.

(** ** The flattener *)

Lemma or_else_text (v : jsval) : or_else v [] = attr_text v.
Proof. destruct v as [| |[|x s]]; reflexivity. Qed.

Lemma or_else_absent (v : jsval) : absent v = true -> or_else v [] = [].
Proof. destruct v; simpl; congruence. Qed.

Lemma parse_array (candidate : Candidate) (jobAppsMap : gmap (list N) JobApplication)
    (refs : list ResourceRef) :
  jobAppRefs_of candidate = Some (RefArray refs) -> refs <> [] ->
  parseCandidateToRows candidate jobAppsMap =
    map (fun ref =>
           {| candidate_id := cand_id candidate;
              first_name := attr_text (attr_first_name (cand_attributes candidate));
              last_name := attr_text (attr_last_name (cand_attributes candidate));
              email := attr_text (attr_email (cand_attributes candidate));
              job_application_id := ref_id ref;
              job_application_created_at := created_at_of (jobAppsMap !! ref_id ref) |})
        refs.
Proof.
  intros Hrefs Hne. unfold parseCandidateToRows. rewrite Hrefs.
  destruct refs as [|r refs]; [congruence|].
  cbn [length Nat.ltb Nat.leb]. rewrite !or_else_text. reflexivity.
Qed.

Lemma parse_placeholder (candidate : Candidate) (jobAppsMap : gmap (list N) JobApplication) :
  (forall refs, jobAppRefs_of candidate = Some (RefArray refs) -> refs = []) ->
  parseCandidateToRows candidate jobAppsMap = [placeholder_row candidate].
Proof.
  intros Hrefs. unfold parseCandidateToRows, placeholder_row.
  rewrite !or_else_text.
  destruct (jobAppRefs_of candidate) as [[refs|ref]|]; try reflexivity.
  rewrite (Hrefs refs eq_refl). reflexivity.
Qed.

(** C1.  A candidate whose job-applications relationship holds a
    non-empty array of [k] references yields exactly [k] rows, the
    [i]-th one carrying the candidate's id, first name, last name and
    email and the id of the [i]-th reference, whatever the lookup map
    is; a candidate whose relationship is absent or holds an empty
    array yields exactly one row, with empty job-application id and
    timestamp. *)
Theorem parseCandidateToRows_one_row_per_reference
    (candidate : Candidate) (jobAppsMap : gmap (list N) JobApplication) :
  (forall refs : list ResourceRef,
      jobAppRefs_of candidate = Some (RefArray refs) -> refs <> [] ->
      length (parseCandidateToRows candidate jobAppsMap) = length refs /\
      forall (i : nat) (ref : ResourceRef), refs !! i = Some ref ->
        exists row : CsvRow,
          parseCandidateToRows candidate jobAppsMap !! i = Some row /\
          candidate_id row = cand_id candidate /\
          first_name row = attr_text (attr_first_name (cand_attributes candidate)) /\
          last_name row = attr_text (attr_last_name (cand_attributes candidate)) /\
          email row = attr_text (attr_email (cand_attributes candidate)) /\
          job_application_id row = ref_id ref)
  /\
  (jobAppRefs_of candidate = None \/ jobAppRefs_of candidate = Some (RefArray []) ->
   exists row : CsvRow,
     parseCandidateToRows candidate jobAppsMap = [row] /\
     candidate_id row = cand_id candidate /\
     first_name row = attr_text (attr_first_name (cand_attributes candidate)) /\
     last_name row = attr_text (attr_last_name (cand_attributes candidate)) /\
     email row = attr_text (attr_email (cand_attributes candidate)) /\
     job_application_id row = [] /\
     job_application_created_at row = []).
Proof.
  split.
  - intros refs Hrefs Hne. rewrite (parse_array _ _ _ Hrefs Hne). split.
    + apply length_map.
    + intros i ref Hi. eexists. split.
      * rewrite list_lookup_fmap, Hi. reflexivity.
      * repeat split.
  - intros Habs. exists (placeholder_row candidate). split; [|repeat split].
    apply parse_placeholder. intros refs Hrefs.
    destruct Habs as [Habs|Habs]; rewrite Habs in Hrefs; congruence.
Qed.

Lemma parseCandidateToRows_one_row_per_reference_witness :
  length (parseCandidateToRows sample_candidate_1 ∅) = 2%nat /\
  exists row : CsvRow,
    parseCandidateToRows sample_candidate_2 ∅ = [row] /\
    job_application_id row = [] /\ job_application_created_at row = [].
Proof.
  split.
  - apply (proj1 (parseCandidateToRows_one_row_per_reference sample_candidate_1 ∅)
             [sample_ref "a"; sample_ref "b"]); [reflexivity | discriminate].
  - destruct (proj2 (parseCandidateToRows_one_row_per_reference sample_candidate_2 ∅)
                (or_introl eq_refl)) as (row & Hrow & _ & _ & _ & _ & Hid & Hat).
    exists row. auto.
Defined.

(** C8.  The flattener is total and substitutes defaults: it always
    returns at least one row; a missing first-name, last-name or email
    attribute gives the empty string in every row; and a reference whose
    id the lookup map does not hold still gives its row, with that id
    and an empty timestamp. *)
Theorem parseCandidateToRows_defaults
    (candidate : Candidate) (jobAppsMap : gmap (list N) JobApplication) :
  parseCandidateToRows candidate jobAppsMap <> [] /\
  (forall row : CsvRow, row ∈ parseCandidateToRows candidate jobAppsMap ->
     (absent (attr_first_name (cand_attributes candidate)) = true -> first_name row = []) /\
     (absent (attr_last_name (cand_attributes candidate)) = true -> last_name row = []) /\
     (absent (attr_email (cand_attributes candidate)) = true -> email row = [])) /\
  (forall (refs : list ResourceRef) (i : nat) (ref : ResourceRef),
     jobAppRefs_of candidate = Some (RefArray refs) ->
     refs !! i = Some ref ->
     jobAppsMap !! ref_id ref = None ->
     exists row : CsvRow,
       parseCandidateToRows candidate jobAppsMap !! i = Some row /\
       job_application_id row = ref_id ref /\
       job_application_created_at row = []).
Proof.
  split; [|split].
  - unfold parseCandidateToRows.
    destruct (jobAppRefs_of candidate) as [[[|r refs]|ref]|]; discriminate.
  - intros row Hin.
    assert (first_name row = or_else (attr_first_name (cand_attributes candidate)) [] /\
            last_name row = or_else (attr_last_name (cand_attributes candidate)) [] /\
            email row = or_else (attr_email (cand_attributes candidate)) [])
      as (Hf & Hl & He).
    { unfold parseCandidateToRows in Hin.
      destruct (jobAppRefs_of candidate) as [[[|r refs]|ref]|];
        cbn [length Nat.ltb Nat.leb] in Hin;
        try (apply list_elem_of_singleton in Hin; subst row; repeat split).
      apply list_elem_of_fmap in Hin. destruct Hin as (ref & -> & _).
      repeat split. }
    rewrite Hf, Hl, He. repeat split; apply or_else_absent.
  - intros refs i ref Hrefs Hi Hnone.
    assert (refs <> []) as Hne by (intros ->; discriminate).
    rewrite (parse_array _ _ _ Hrefs Hne). eexists. split.
    + rewrite list_lookup_fmap, Hi. reflexivity.
    + cbn. rewrite Hnone. split; reflexivity.
Qed.

Lemma parseCandidateToRows_defaults_witness :
  (forall row : CsvRow, row ∈ parseCandidateToRows sample_candidate_4 ∅ ->
     first_name row = [] /\ last_name row = [] /\ email row = []) /\
  exists row : CsvRow,
    parseCandidateToRows sample_candidate_4 ∅ !! 0%nat = Some row /\
    job_application_id row = lit "zz" /\
    job_application_created_at row = [].
Proof.
  destruct (parseCandidateToRows_defaults sample_candidate_4 ∅) as (_ & Hattr & Hrefs).
  split.
  - intros row Hin. destruct (Hattr row Hin) as (Hf & Hl & He).
    repeat split; [apply Hf | apply Hl | apply He]; reflexivity.
  - apply (Hrefs [sample_ref "zz"] 0%nat (sample_ref "zz"));
      [reflexivity | reflexivity | apply lookup_empty].
Defined.

(** C10.  A relationship whose [data] is one reference object, not an
    array, yields exactly one row with empty job-application id and
    timestamp: the reference's id is dropped, and the result is the one
    the candidate gives with no relationships at all. *)
Theorem parseCandidateToRows_single_reference
    (candidate : Candidate) (jobAppsMap : gmap (list N) JobApplication)
    (ref : ResourceRef) :
  jobAppRefs_of candidate = Some (RefSingle ref) ->
  parseCandidateToRows candidate jobAppsMap = [placeholder_row candidate] /\
  job_application_id (placeholder_row candidate) = [] /\
  job_application_created_at (placeholder_row candidate) = [] /\
  parseCandidateToRows candidate jobAppsMap =
    parseCandidateToRows (without_relationships candidate) jobAppsMap.
Proof.
  intros Href.
  assert (parseCandidateToRows candidate jobAppsMap = [placeholder_row candidate]) as Hrow.
  { apply parse_placeholder. intros refs Hrefs. congruence. }
  split; [exact Hrow|]. split; [reflexivity|]. split; [reflexivity|].
  rewrite Hrow. symmetry.
  apply (parse_placeholder (without_relationships candidate)).
  intros refs Hrefs. discriminate.
Qed.

Lemma parseCandidateToRows_single_reference_witness :
  parseCandidateToRows sample_candidate_3 ∅ = [placeholder_row sample_candidate_3].
Proof.
  apply (parseCandidateToRows_single_reference sample_candidate_3 ∅ (sample_ref "a")).
  reflexivity.
Defined.

(** ** The CSV encoder *)

Lemma indexOf_from_spec (c : N) (s : jsstring) (i : Z) :
  (0 <= i)%Z ->
  (indexOf_from c s i = -1)%Z <-> c ∉ s.
Proof.
  revert i. induction s as [|x s IH]; intros i Hi; simpl.
  - split; [intros _; apply not_elem_of_nil | reflexivity].
  - destruct (N.eqb_spec x c) as [->|Hne].
    + split; [lia | intros Hnot; exfalso; apply Hnot; left].
    + rewrite IH by lia. rewrite not_elem_of_cons. split; [intros H; split; [congruence | exact H] | tauto].
Qed.

Lemma indexOf_found (c : N) (s : jsstring) :
  negb (indexOf c s =? -1)%Z = bool_decide (c ∈ s).
Proof.
  unfold indexOf. pose proof (indexOf_from_spec c s 0%Z ltac:(lia)) as H.
  destruct (Z.eqb_spec (indexOf_from c s 0) (-1)) as [Heq|Hne]; simpl.
  - symmetry. apply bool_decide_eq_false. apply H, Heq.
  - symmetry. apply bool_decide_eq_true.
    destruct (decide (c ∈ s)) as [Hin|Hnin]; [exact Hin|].
    exfalso. apply Hne, H, Hnin.
Qed.

Lemma needs_quotes_spec (str : jsstring) :
  needs_quotes str = true <-> COMMA ∈ str \/ DQUOTE ∈ str \/ NEWLINE ∈ str.
Proof.
  unfold needs_quotes. rewrite !indexOf_found, !orb_true_iff, !bool_decide_eq_true.
  tauto.
Qed.

Lemma replace_all_double (s : jsstring) :
  replace_all DQUOTE ([DQUOTE] ++ [DQUOTE]) s = double_quotes s.
Proof.
  induction s as [|x s IH]; [reflexivity|].
  cbn [replace_all]. rewrite IH.
  unfold double_quotes at 2. cbn [flat_map]. fold (double_quotes s).
  destruct (N.eqb_spec x DQUOTE) as [->|Hne].
  - rewrite decide_True by reflexivity. reflexivity.
  - rewrite decide_False by exact Hne. reflexivity.
Qed.

(** C4.  The escaped field is wrapped in double quotes exactly when the
    field's text holds a comma, a double quote or a line feed; the
    wrapped body is the text with every double quote doubled; a field
    that needs no quotes is left as it is; and [null] and [undefined]
    give the empty string. *)
Theorem escapeField_quotes_iff (field : jsval) :
  ((exists body : jsstring, escapeField field = [DQUOTE] ++ body ++ [DQUOTE]) <->
   (COMMA ∈ to_str field \/ DQUOTE ∈ to_str field \/ NEWLINE ∈ to_str field)) /\
  (COMMA ∈ to_str field \/ DQUOTE ∈ to_str field \/ NEWLINE ∈ to_str field ->
   escapeField field = [DQUOTE] ++ double_quotes (to_str field) ++ [DQUOTE]) /\
  (~ (COMMA ∈ to_str field \/ DQUOTE ∈ to_str field \/ NEWLINE ∈ to_str field) ->
   escapeField field = to_str field) /\
  escapeField JNull = [] /\
  escapeField JUndefined = [] /\
  (forall s : jsstring, to_str (JString s) = s).
Proof.
  assert (COMMA ∈ to_str field \/ DQUOTE ∈ to_str field \/ NEWLINE ∈ to_str field ->
          escapeField field = [DQUOTE] ++ double_quotes (to_str field) ++ [DQUOTE]) as Hyes.
  { intros H. apply needs_quotes_spec in H. unfold escapeField.
    rewrite H, replace_all_double. reflexivity. }
  assert (~ (COMMA ∈ to_str field \/ DQUOTE ∈ to_str field \/ NEWLINE ∈ to_str field) ->
          escapeField field = to_str field) as Hno.
  { intros H. unfold escapeField.
    destruct (needs_quotes (to_str field)) eqn:E; [|reflexivity].
    exfalso. apply H, needs_quotes_spec, E. }
  split; [|repeat split; auto].
  split.
  - intros [body Hbody].
    destruct (decide (COMMA ∈ to_str field \/ DQUOTE ∈ to_str field \/ NEWLINE ∈ to_str field))
      as [Hs|Hs]; [exact Hs|].
    rewrite (Hno Hs) in Hbody. right; left. rewrite Hbody. left.
  - intros H. eexists. apply (Hyes H).
Qed.

Lemma escapeField_quotes_iff_witness :
  escapeField (JString (lit "a,b")) = [DQUOTE] ++ double_quotes (lit "a,b") ++ [DQUOTE] /\
  escapeField (JString (lit "ab")) = lit "ab".
Proof.
  split.
  - apply (proj1 (proj2 (escapeField_quotes_iff (JString (lit "a,b"))))).
    left. apply (bool_decide_unpack (COMMA ∈ lit "a,b")). vm_compute. exact I.
  - apply (proj1 (proj2 (proj2 (escapeField_quotes_iff (JString (lit "ab")))))).
    apply (bool_decide_unpack
             (~ (COMMA ∈ lit "ab" \/ DQUOTE ∈ lit "ab" \/ NEWLINE ∈ lit "ab"))).
    vm_compute. exact I.
Defined.

Lemma unescape_body_doubled (s : jsstring) :
  unescape_body (double_quotes s ++ [DQUOTE]) = Some s.
Proof.
  induction s as [|x s IH]; [reflexivity|].
  unfold double_quotes. cbn [flat_map]. fold (double_quotes s).
  destruct (decide (x = DQUOTE)) as [->|Hne].
  - cbn. fold (double_quotes s). rewrite IH. reflexivity.
  - cbn [app unescape_body]. apply N.eqb_neq in Hne. rewrite Hne, IH. reflexivity.
Qed.

(** C5.  A string that holds a comma, a double quote or a line feed is
    recovered exactly by reading its escaped form back as an RFC 4180
    field. *)
Theorem escapeField_roundtrip (s : jsstring) :
  COMMA ∈ s \/ DQUOTE ∈ s \/ NEWLINE ∈ s ->
  rfc4180_unescape (escapeField (JString s)) = Some s.
Proof.
  intros H. apply needs_quotes_spec in H. unfold escapeField. cbn [to_str].
  rewrite H, replace_all_double. cbn. apply unescape_body_doubled.
Qed.

Lemma escapeField_roundtrip_witness :
  rfc4180_unescape (escapeField (JString sample_text)) = Some sample_text.
Proof.
  apply escapeField_roundtrip.
  left. apply (bool_decide_unpack (COMMA ∈ sample_text)). vm_compute. exact I.
Defined.

Lemma csvLines_snoc (rows : list CsvRow) (lines : list jsstring) :
  fold_left (fun lines row => lines ++ [row_line row]) rows lines =
  lines ++ map row_line rows.
Proof.
  revert lines. induction rows as [|row rows IH]; intros lines; simpl.
  - rewrite app_nil_r. reflexivity.
  - rewrite IH, <- app_assoc. reflexivity.
Qed.

Lemma csvLines_spec (rows : list CsvRow) :
  csvLines rows = header_line :: map row_line rows.
Proof. unfold csvLines. rewrite csvLines_snoc. reflexivity. Qed.

Lemma row_line_fields (row : CsvRow) :
  row_line row =
  join (lit ",") (map (fun f => escapeField (JString f)) (row_fields row)).
Proof. reflexivity. Qed.

Lemma occurrences_app (c : N) (s t : jsstring) :
  occurrences c (s ++ t) = (occurrences c s + occurrences c t)%nat.
Proof. unfold occurrences. rewrite filter_app, length_app. reflexivity. Qed.

Lemma occurrences_cons (c x : N) (s : jsstring) :
  occurrences c (x :: s) = ((if decide (x = c) then 1 else 0) + occurrences c s)%nat.
Proof.
  unfold occurrences. rewrite filter_cons.
  destruct (decide (x = c)); reflexivity.
Qed.

Lemma occurrences_join (c : N) (sep : jsstring) (l : list jsstring) :
  occurrences c (join sep l) =
  (sum_list (map (occurrences c) l) + (length l - 1) * occurrences c sep)%nat.
Proof.
  induction l as [|x l IH]; [reflexivity|].
  destruct l as [|y l].
  - simpl. lia.
  - change (join sep (x :: y :: l)) with (x ++ sep ++ join sep (y :: l)).
    rewrite !occurrences_app, IH. simpl. lia.
Qed.

Lemma occurrences_double_quotes (c : N) (s : jsstring) :
  c <> DQUOTE -> occurrences c (double_quotes s) = occurrences c s.
Proof.
  intros Hc. induction s as [|x s IH]; [reflexivity|].
  unfold double_quotes. cbn [flat_map]. fold (double_quotes s).
  rewrite occurrences_app, IH, (occurrences_cons c x s).
  destruct (decide (x = DQUOTE)) as [->|Hne].
  - rewrite !occurrences_cons.
    rewrite !decide_False by congruence. reflexivity.
  - rewrite occurrences_cons. change (occurrences c []) with 0%nat. lia.
Qed.

Lemma occurrences_escapeField (c : N) (s : jsstring) :
  c <> DQUOTE -> occurrences c (escapeField (JString s)) = occurrences c s.
Proof.
  intros Hc. unfold escapeField. cbn [to_str].
  destruct (needs_quotes s); [|reflexivity].
  rewrite replace_all_double, !occurrences_app, occurrences_double_quotes by exact Hc.
  rewrite !occurrences_cons, !decide_False by congruence.
  change (occurrences c []) with 0%nat. lia.
Qed.

Lemma occurrences_row_line (c : N) (row : CsvRow) :
  c <> DQUOTE -> c <> COMMA ->
  occurrences c (row_line row) = sum_list (map (occurrences c) (row_fields row)).
Proof.
  intros Hq Hc. rewrite row_line_fields, occurrences_join.
  rewrite map_map.
  rewrite (map_ext _ (occurrences c) (fun f => occurrences_escapeField c f Hq)).
  assert (occurrences c (lit ",") = 0%nat) as ->.
  { change (lit ",") with [COMMA]. rewrite occurrences_cons.
    rewrite decide_False by congruence. reflexivity. }
  lia.
Qed.

Lemma occurrences_document (c : N) (rows : list CsvRow) :
  c <> DQUOTE -> c <> COMMA -> c <> BOM ->
  occurrences c header_line = 0%nat ->
  occurrences c (convertToCSV rows) =
  (length rows * occurrences c [NEWLINE] + embedded c rows)%nat.
Proof.
  intros Hq Hc Hb Hh. unfold convertToCSV.
  rewrite csvLines_spec, occurrences_app, occurrences_join.
  cbn [map sum_list sum_list_with length]. rewrite Hh, length_map.
  rewrite map_map.
  rewrite (map_ext _ (fun row => sum_list (map (occurrences c) (row_fields row)))
             (fun row => occurrences_row_line c row Hq Hc)).
  fold (embedded c rows).
  rewrite occurrences_cons, decide_False by congruence.
  change (occurrences c []) with 0%nat.
  replace (S (length rows) - 1)%nat with (length rows) by lia.
  unfold id. lia.
Qed.

(** ** The page fetcher *)

Section Fetcher.

Variable nodeFetch : nat -> jsstring -> list (jsstring * jsstring) -> Response.
Variables apiKey url : jsstring.

Let respond (n : nat) : Response := nodeFetch n url (request_headers apiKey).

Lemma attempt_loop_retry (remaining attempt : nat) (lastError : option error) (n : nat) :
  status (respond n) = 429 ->
  attempt_loop nodeFetch (S remaining) attempt lastError apiKey url n =
  let '(c, n', evs) :=
    attempt_loop nodeFetch remaining (S attempt) (Some RateLimitExceeded) apiKey url (S n) in
  (c, n', (wait_before attempt ++ [EvRequest url (request_headers apiKey)]) ++ evs).
Proof.
  intros H429. unfold respond in H429. cbn [attempt_loop].
  unfold bind, emit, ret, fetch, wait_before.
  destruct (0 <? attempt)%nat; cbn [app]; rewrite H429; cbn;
    destruct (attempt_loop nodeFetch remaining (S attempt) _ apiKey url (S n))
      as [[c n'] evs]; reflexivity.
Qed.

Lemma attempt_loop_settle (remaining attempt : nat) (lastError : option error) (n : nat) :
  status (respond n) <> 429 ->
  attempt_loop nodeFetch (S remaining) attempt lastError apiKey url n =
  (settle (respond n), S n, wait_before attempt ++ [EvRequest url (request_headers apiKey)]).
Proof.
  intros Hne. apply N.eqb_neq in Hne. unfold respond in *. cbn [attempt_loop].
  unfold bind, emit, ret, throw, fetch, wait_before, settle.
  destruct (0 <? attempt)%nat; cbn [app]; rewrite Hne;
    destruct (ok (nodeFetch n url (request_headers apiKey))); cbn [negb];
    try reflexivity;
    destruct (status (nodeFetch n url (request_headers apiKey)) =? 401); try reflexivity;
    destruct (status (nodeFetch n url (request_headers apiKey)) =? 403); reflexivity.
Qed.

(** [j] rate-limited responses, then one that is not. *)
Lemma attempt_loop_settles (j : nat) :
  forall (remaining attempt : nat) (lastError : option error) (n : nat),
    (forall i, (i < j)%nat -> status (respond (n + i)) = 429) ->
    status (respond (n + j)) <> 429 ->
    attempt_loop nodeFetch (j + S remaining) attempt lastError apiKey url n =
    (settle (respond (n + j)), (n + S j)%nat, passes apiKey url attempt (S j)).
Proof.
  induction j as [|j IH]; intros remaining attempt lastError n Hlim Hnot.
  - rewrite Nat.add_0_r in Hnot. cbn [Nat.add].
    rewrite attempt_loop_settle by exact Hnot.
    rewrite Nat.add_0_r, Nat.add_1_r. unfold passes. cbn. rewrite app_nil_r. reflexivity.
  - cbn [Nat.add]. rewrite attempt_loop_retry.
    2:{ specialize (Hlim 0%nat ltac:(lia)). rewrite Nat.add_0_r in Hlim. exact Hlim. }
    rewrite IH.
    + replace (S n + j)%nat with (n + S j)%nat by lia.
      replace (S n + S j)%nat with (n + S (S j))%nat by lia.
      reflexivity.
    + intros i Hi. replace (S n + i)%nat with (n + S i)%nat by lia. apply Hlim. lia.
    + replace (S n + j)%nat with (n + S j)%nat by lia. exact Hnot.
Qed.

(** Rate-limited responses until the loop condition fails. *)
Lemma attempt_loop_exhausted (j : nat) :
  forall (attempt : nat) (lastError : option error) (n : nat),
    (forall i, (i < S j)%nat -> status (respond (n + i)) = 429) ->
    attempt_loop nodeFetch (S j) attempt lastError apiKey url n =
    (Throw RateLimitExceeded, (n + S j)%nat, passes apiKey url attempt (S j)).
Proof.
  induction j as [|j IH]; intros attempt lastError n Hlim.
  - rewrite attempt_loop_retry.
    2:{ specialize (Hlim 0%nat ltac:(lia)). rewrite Nat.add_0_r in Hlim. exact Hlim. }
    cbn. rewrite Nat.add_1_r, !app_nil_r. reflexivity.
  - rewrite attempt_loop_retry.
    2:{ specialize (Hlim 0%nat ltac:(lia)). rewrite Nat.add_0_r in Hlim. exact Hlim. }
    rewrite IH.
    + replace (S n + S j)%nat with (n + S (S j))%nat by lia. reflexivity.
    + intros i Hi. replace (S n + i)%nat with (n + S i)%nat by lia. apply Hlim. lia.
Qed.

End Fetcher.

Section FetcherClaims.

Variable nodeFetch : nat -> jsstring -> list (jsstring * jsstring) -> Response.

(** C2.  Let the first [j] responses to a page request be rate-limited
    (429) and, when [j] is at most 3, the next one not.  The call then
    sends [min (j + 1) 4] requests and no more, each retry preceded by
    its wait: 1000, 2000 and 4000 ms before the first, second and third
    retry (2^(k-1) seconds before retry [k]).  Four rate-limited
    responses end it with the rate-limit error; a response that is not a
    429 ends it at once, and a successful one gives its parsed body
    back unchanged. *)
Theorem fetchCandidatesPage_retry_policy
    (apiKey : jsstring) (pageNumber : N) (n j : nat) :
  (j <= S MAX_RETRIES)%nat ->
  (forall i : nat, (i < j)%nat ->
     status (answer nodeFetch apiKey pageNumber (n + i)) = 429) ->
  ((j <= MAX_RETRIES)%nat ->
     status (answer nodeFetch apiKey pageNumber (n + j)) <> 429) ->
  exists (c : completion ApiResponse) (evs : list event),
    fetchCandidatesPage nodeFetch apiKey pageNumber n
      = (c, (n + Nat.min (S j) 4)%nat, evs) /\
    evs = passes apiKey (page_url pageNumber) 0 (Nat.min (S j) 4) /\
    requests evs = replicate (Nat.min (S j) 4) (page_url pageNumber) /\
    sleeps evs = take j [1000; 2000; 4000] /\
    sleeps evs = map (fun k => 2 ^ (N.of_nat k - 1) * 1000) (seq 1 (Nat.min j 3)) /\
    (j = 4%nat -> c = Throw RateLimitExceeded) /\
    ((j <= 3)%nat -> ok (answer nodeFetch apiKey pageNumber (n + j)) = true ->
       c = Return (json (answer nodeFetch apiKey pageNumber (n + j)))) /\
    ((j <= 3)%nat -> ok (answer nodeFetch apiKey pageNumber (n + j)) = false ->
       exists e : error, c = Throw e).
Proof.
  intros Hj Hlim Hnot. unfold MAX_RETRIES in *. unfold answer in *.
  assert (j = 4 \/ j <= 3)%nat as [->|Hle] by lia.
  - pose proof (attempt_loop_exhausted nodeFetch apiKey (page_url pageNumber)
                  3 0 None n Hlim) as Hrun.
    exists (Throw RateLimitExceeded), (passes apiKey (page_url pageNumber) 0 4).
    split; [exact Hrun|]. repeat split; try reflexivity; intros; lia.
  - specialize (Hnot Hle).
    pose proof (attempt_loop_settles nodeFetch apiKey (page_url pageNumber)
                  j (3 - j) 0 None n Hlim Hnot) as Hrun.
    replace (j + S (3 - j))%nat with 4%nat in Hrun by lia.
    eexists; eexists. split.
    { unfold fetchCandidatesPage, MAX_RETRIES. rewrite Hrun.
      replace (Nat.min (S j) 4) with (S j) by lia. reflexivity. }
    replace (Nat.min (S j) 4) with (S j) by lia.
    replace (Nat.min j 3) with j by lia.
    split; [reflexivity|].
    split; [destruct j as [|[|[|[|j]]]]; try lia; reflexivity|].
    split; [destruct j as [|[|[|[|j]]]]; try lia; reflexivity|].
    split; [destruct j as [|[|[|[|j]]]]; try lia; reflexivity|].
    split; [intros ->; lia|].
    unfold settle. split.
    + intros _ Hok. rewrite Hok. reflexivity.
    + intros _ Hok. rewrite Hok.
      destruct (status _ =? 401); [|destruct (status _ =? 403)]; eexists; reflexivity.
Qed.

(** C6.  A response that is neither a success nor a 429 ends the call at
    once, after any number of rate-limited ones: 401 with the
    invalid-credential error, 403 with the access-denied error, any
    other status with the upstream error that carries the status; the
    failing request is the last one sent and no wait follows it. *)
Theorem fetchCandidatesPage_fatal_status
    (apiKey : jsstring) (pageNumber : N) (n j : nat) :
  (j <= MAX_RETRIES)%nat ->
  (forall i : nat, (i < j)%nat ->
     status (answer nodeFetch apiKey pageNumber (n + i)) = 429) ->
  status (answer nodeFetch apiKey pageNumber (n + j)) <> 429 ->
  ok (answer nodeFetch apiKey pageNumber (n + j)) = false ->
  exists (c : completion ApiResponse) (evs : list event),
    fetchCandidatesPage nodeFetch apiKey pageNumber n = (c, (n + S j)%nat, evs) /\
    requests evs = replicate (S j) (page_url pageNumber) /\
    sleeps evs = take j [1000; 2000; 4000] /\
    (status (answer nodeFetch apiKey pageNumber (n + j)) = 401 ->
       c = Throw InvalidCredential /\ c = Throw (Error (lit "Invalid API key"))) /\
    (status (answer nodeFetch apiKey pageNumber (n + j)) = 403 ->
       c = Throw AccessDenied /\ c = Throw (Error (lit "Access denied"))) /\
    (status (answer nodeFetch apiKey pageNumber (n + j)) <> 401 ->
     status (answer nodeFetch apiKey pageNumber (n + j)) <> 403 ->
       c = Throw (UpstreamError (status (answer nodeFetch apiKey pageNumber (n + j)))) /\
       c = Throw (Error (lit "API error: "
                           ++ decimal (status (answer nodeFetch apiKey pageNumber (n + j)))))).
Proof.
  intros Hj Hlim Hnot Hok. unfold MAX_RETRIES in *. unfold answer in *.
  pose proof (attempt_loop_settles nodeFetch apiKey (page_url pageNumber)
                j (3 - j) 0 None n Hlim Hnot) as Hrun.
  replace (j + S (3 - j))%nat with 4%nat in Hrun by lia.
  eexists; eexists. split; [exact Hrun|].
  split; [destruct j as [|[|[|[|j]]]]; try lia; reflexivity|].
  split; [destruct j as [|[|[|[|j]]]]; try lia; reflexivity|].
  unfold settle. rewrite Hok. split; [|split].
  - intros H401. rewrite H401. split; reflexivity.
  - intros H403. rewrite H403. split; reflexivity.
  - intros H401 H403. apply N.eqb_neq in H401, H403.
    rewrite H401, H403. split; reflexivity.
Qed.

End FetcherClaims.

Lemma fetchCandidatesPage_retry_policy_witness :
  exists (c : completion ApiResponse) (evs : list event),
    fetchCandidatesPage
      (scripted [rate_limited; rate_limited; rate_limited; served sample_page_1])
      (lit "key") 1 0%nat = (c, 4%nat, evs) /\
    sleeps evs = [1000; 2000; 4000] /\
    c = Return sample_page_1.
Proof.
  destruct (fetchCandidatesPage_retry_policy
              (scripted [rate_limited; rate_limited; rate_limited; served sample_page_1])
              (lit "key") 1 0%nat 3%nat)
    as (c & evs & Hrun & _ & _ & Hsleeps & _ & _ & Hok & _).
  - unfold MAX_RETRIES. lia.
  - intros i Hi. destruct i as [|[|[|i]]]; [reflexivity | reflexivity | reflexivity | lia].
  - intros _. discriminate.
  - exists c, evs. split; [exact Hrun|]. split; [exact Hsleeps|].
    apply Hok; [lia | reflexivity].
Defined.

Lemma fetchCandidatesPage_fatal_status_witness :
  exists (evs : list event),
    fetchCandidatesPage
      (scripted [rate_limited; {| status := 401; json := empty_page |}; served sample_page_1])
      (lit "key") 1 0%nat = (Throw InvalidCredential, 2%nat, evs) /\
    requests evs = [page_url 1; page_url 1].
Proof.
  destruct (fetchCandidatesPage_fatal_status
              (scripted [rate_limited; {| status := 401; json := empty_page |};
                         served sample_page_1])
              (lit "key") 1 0%nat 1%nat)
    as (c & evs & Hrun & Hreq & _ & H401 & _).
  - unfold MAX_RETRIES. lia.
  - intros i Hi. destruct i as [|i]; [reflexivity | lia].
  - discriminate.
  - reflexivity.
  - exists evs. destruct (H401 eq_refl) as [-> _]. split; [exact Hrun | exact Hreq].
Defined.

(** ** The pagination driver *)

Lemma push_rows_snoc (rows acc : list CsvRow) :
  fold_left (fun acc' row => acc' ++ [row]) rows acc = acc ++ rows.
Proof.
  revert acc. induction rows as [|row rows IH]; intros acc; simpl.
  - rewrite app_nil_r. reflexivity.
  - rewrite IH, <- app_assoc. reflexivity.
Qed.

Lemma push_page_rows_spec (data : ApiResponse) (allRows : list CsvRow) :
  push_page_rows data allRows = allRows ++ page_rows data.
Proof.
  unfold push_page_rows, page_rows.
  generalize (build_jobAppsMap data) as m. intros m. revert allRows.
  induction (resp_data data) as [|candidate cs IH]; intros allRows; simpl.
  - rewrite app_nil_r. reflexivity.
  - rewrite push_rows_snoc, IH, <- app_assoc. reflexivity.
Qed.

Lemma build_jobAppsMap_fold (included : list JobApplication)
    (m : gmap (list N) JobApplication) (k : jsstring) :
  fold_left
    (fun (m : gmap (list N) JobApplication) resource =>
       if decide (ja_type resource = lit "job-applications")
       then <[ja_id resource := resource]> m
       else m)
    included m !! k
  = match last (filter (fun resource =>
                          ja_type resource = lit "job-applications" /\ ja_id resource = k)
                       included) with
    | Some resource => Some resource
    | None => m !! k
    end.
Proof.
  revert m. induction included as [|r included IH]; intros m; [reflexivity|].
  cbn [fold_left]. rewrite IH, filter_cons.
  destruct (decide (ja_type r = lit "job-applications")) as [Ht|Ht].
  - destruct (decide (ja_id r = k)) as [Hk|Hk].
    + rewrite decide_True by auto. rewrite last_cons.
      destruct (last _); [reflexivity|]. subst k. apply lookup_insert_eq.
    + rewrite decide_False by tauto.
      destruct (last _); [reflexivity|]. apply lookup_insert_ne, Hk.
  - rewrite decide_False by tauto. reflexivity.
Qed.

Lemma build_jobAppsMap_lookup (data : ApiResponse) (k : jsstring) :
  build_jobAppsMap data !! k = side_loaded data k.
Proof.
  unfold build_jobAppsMap, side_loaded.
  destruct (resp_included data) as [included|]; cbn [default].
  - rewrite build_jobAppsMap_fold. rewrite lookup_empty.
    destruct (last _); reflexivity.
  - rewrite filter_nil. apply lookup_empty.
Qed.

Lemma has_next_spec (data : ApiResponse) :
  has_next data = true <->
  exists (links : Links) (cursor : jsstring),
    resp_links data = Some links /\ links_next links = JString cursor /\ cursor <> [].
Proof.
  unfold has_next. destruct (resp_links data) as [links|].
  - destruct (links_next links) as [| |[|x s]] eqn:E; cbn; split;
      try discriminate; try (intros (l & c & Hl & Hc & Hne); congruence).
    intros _. exists links, (x :: s). rewrite E. repeat split. discriminate.
  - split; [discriminate|]. intros (l & c & Hl & _). discriminate.
Qed.

Section Driver.

Variable nodeFetch : nat -> jsstring -> list (jsstring * jsstring) -> Response.
Variable apiKey : jsstring.

Lemma loop_body_eq (allRows : list CsvRow) (currentPage : N) (totalPages : option N)
    (n n' : nat) (c : completion ApiResponse) (evs : list event) :
  fetchCandidatesPage nodeFetch apiKey currentPage n = (c, n', evs) ->
  loop_body nodeFetch apiKey allRows currentPage totalPages n =
  (match c with
   | Return data =>
       Return (if has_next data
               then Continue (allRows ++ page_rows data) (currentPage + 1)
                             (update_totalPages totalPages data)
               else Break (allRows ++ page_rows data))
   | Throw e => Throw e
   end, n', fetching_line currentPage totalPages :: evs).
Proof.
  intros Hfetch. unfold loop_body, bind, emit, ret, fetching_line.
  rewrite Hfetch. destruct c as [data|e]; [|reflexivity].
  rewrite push_page_rows_spec.
  destruct (has_next data); cbn; rewrite app_nil_r; reflexivity.
Qed.

Lemma requests_app (evs evs' : list event) :
  requests (evs ++ evs') = requests evs ++ requests evs'.
Proof. apply omap_app. Qed.

Lemma sleeps_app (evs evs' : list event) :
  sleeps (evs ++ evs') = sleeps evs ++ sleeps evs'.
Proof. apply omap_app. Qed.

(** The driver on a chain of fetched pages: it returns after one
    iteration per page, with the rows accumulated in page order. *)
Lemma fetchAll_loop_run (p : N) (n : nat) (pages : list ApiResponse)
    (evss : list (list event)) (n' : nat) :
  serves_pages nodeFetch apiKey p n pages evss n' ->
  forall (allRows : list CsvRow) (totalPages : option N),
  exists evs : list event,
    (forall fuel : nat, (length pages <= fuel)%nat ->
       fetchAll_loop nodeFetch fuel apiKey allRows p totalPages n =
       Some (Return (allRows ++ concat (map page_rows pages)), n', evs)) /\
    requests evs = concat (map requests evss) /\
    sleeps evs = concat (map sleeps evss).
Proof.
  induction 1 as [p n d n' evs Hfetch Hnext
                 |p n d n' evs ds evss n'' Hfetch Hnext Hrest IH];
    intros allRows totalPages.
  - exists (fetching_line p totalPages :: evs). split; [|split].
    + intros [|fuel] Hfuel; [simpl in Hfuel; lia|].
      cbn [fetchAll_loop]. rewrite (loop_body_eq _ _ _ _ _ _ _ Hfetch), Hnext.
      cbn. rewrite app_nil_r. reflexivity.
    + cbn. rewrite app_nil_r. reflexivity.
    + cbn. rewrite app_nil_r. reflexivity.
  - destruct (IH (allRows ++ page_rows d) (update_totalPages totalPages d))
      as (evs' & Hrun & Hreq & Hsl).
    exists ((fetching_line p totalPages :: evs) ++ evs'). split; [|split].
    + intros [|fuel] Hfuel; [simpl in Hfuel; lia|].
      cbn [fetchAll_loop]. rewrite (loop_body_eq _ _ _ _ _ _ _ Hfetch), Hnext.
      rewrite Hrun by (simpl in Hfuel; lia).
      cbn [map concat]. rewrite <- app_assoc. reflexivity.
    + rewrite requests_app, Hreq. reflexivity.
    + rewrite sleeps_app, Hsl. reflexivity.
Qed.

End Driver.

Lemma ok_not_rate_limited (response : Response) :
  ok response = true -> status response <> 429.
Proof.
  unfold ok. intros H. apply andb_true_iff in H as [_ H].
  apply N.leb_le in H. lia.
Qed.

Lemma page_numbers_S (p : N) (count : nat) :
  page_numbers p (S count) = p :: page_numbers (p + 1) count.
Proof.
  unfold page_numbers. cbn [seq map]. f_equal; [lia|].
  rewrite <- seq_shift, map_map. apply map_ext. intros i. lia.
Qed.

Lemma requests_one_each (hs : list (jsstring * jsstring)) (l : list N) :
  concat (map requests (map (fun q => [EvRequest (page_url q) hs]) l)) = map page_url l /\
  concat (map sleeps (map (fun q => [EvRequest (page_url q) hs]) l)) = [].
Proof.
  induction l as [|q l [IHr IHs]]; [split; reflexivity|].
  cbn [map concat]. rewrite IHr, IHs. split; reflexivity.
Qed.

Section DriverClaims.

Variable nodeFetch : nat -> jsstring -> list (jsstring * jsstring) -> Response.
Variable apiKey : jsstring.

Lemma fetchCandidatesPage_direct (p : N) (n : nat) :
  ok (answer nodeFetch apiKey p n) = true ->
  fetchCandidatesPage nodeFetch apiKey p n =
  (Return (json (answer nodeFetch apiKey p n)), S n,
   [EvRequest (page_url p) (request_headers apiKey)]).
Proof.
  intros Hok. unfold fetchCandidatesPage, MAX_RETRIES.
  rewrite attempt_loop_settle by (apply ok_not_rate_limited, Hok).
  unfold settle. fold (answer nodeFetch apiKey p n). rewrite Hok. reflexivity.
Qed.

(** Every request answered at once with the next page of the list. *)
Lemma serves_pages_direct (pages : list ApiResponse) :
  forall (p : N) (n : nat),
    pages <> [] ->
    (forall (i : nat) (d : ApiResponse), pages !! i = Some d ->
       ok (answer nodeFetch apiKey (p + N.of_nat i) (n + i)) = true /\
       json (answer nodeFetch apiKey (p + N.of_nat i) (n + i)) = d) ->
    (forall (i : nat) (d : ApiResponse), pages !! i = Some d ->
       (has_next d = true <-> (S i < length pages)%nat)) ->
    serves_pages nodeFetch apiKey p n pages
      (map (fun q => [EvRequest (page_url q) (request_headers apiKey)])
           (page_numbers p (length pages)))
      (n + length pages).
Proof.
  induction pages as [|d ds IH]; intros p n Hne Hserve Hcursor; [congruence|].
  destruct (Hserve 0%nat d eq_refl) as [Hok Hjson].
  rewrite N.add_0_r, Nat.add_0_r in Hok, Hjson.
  pose proof (fetchCandidatesPage_direct p n Hok) as Hfetch. rewrite Hjson in Hfetch.
  cbn [length]. rewrite page_numbers_S. cbn [map].
  destruct (decide (ds = [])) as [->|Hds].
  - cbn [length]. replace (n + 1)%nat with (S n) by lia.
    apply serves_last; [exact Hfetch|].
    destruct (has_next d) eqn:E; [|reflexivity].
    apply (Hcursor 0%nat d eq_refl) in E. simpl in E. lia.
  - replace (n + S (length ds))%nat with (S n + length ds)%nat by lia.
    apply serves_more with (n' := S n); [exact Hfetch | |].
    + apply (Hcursor 0%nat d eq_refl). destruct ds; [congruence|]. simpl. lia.
    + apply IH; [exact Hds | |].
      * intros i x Hx.
        replace (p + 1 + N.of_nat i) with (p + N.of_nat (S i)) by lia.
        replace (S n + i)%nat with (n + S i)%nat by lia.
        apply Hserve, Hx.
      * intros i x Hx. rewrite (Hcursor (S i) x Hx). simpl. lia.
Qed.

(** C3.  An iteration of the pagination loop goes on to the next page,
    the page number one higher, exactly when the fetched page carries a
    non-empty cursor in [links.next], and ends the loop otherwise.  When
    the service answers the requests with the pages of a list whose last
    page alone carries no cursor, the driver sends exactly one request
    per page, for page numbers 1, 2, ... in order, and returns the
    accumulated rows. *)
Theorem fetchAllCandidates_pagination :
  (forall (allRows : list CsvRow) (currentPage : N) (totalPages : option N)
          (n n' : nat) (data : ApiResponse) (evs : list event),
      fetchCandidatesPage nodeFetch apiKey currentPage n = (Return data, n', evs) ->
      (has_next data = true <->
       exists (links : Links) (cursor : jsstring),
         resp_links data = Some links /\ links_next links = JString cursor /\
         cursor <> []) /\
      loop_body nodeFetch apiKey allRows currentPage totalPages n =
      (Return (if has_next data
               then Continue (allRows ++ page_rows data) (currentPage + 1)
                             (update_totalPages totalPages data)
               else Break (allRows ++ page_rows data)),
       n', fetching_line currentPage totalPages :: evs))
  /\
  (forall (n : nat) (pages : list ApiResponse),
      pages <> [] ->
      (forall (i : nat) (d : ApiResponse), pages !! i = Some d ->
         ok (answer nodeFetch apiKey (1 + N.of_nat i) (n + i)) = true /\
         json (answer nodeFetch apiKey (1 + N.of_nat i) (n + i)) = d) ->
      (forall (i : nat) (d : ApiResponse), pages !! i = Some d ->
         (has_next d = true <-> (S i < length pages)%nat)) ->
      exists evs : list event,
        (forall fuel : nat, (length pages <= fuel)%nat ->
           fetchAllCandidates nodeFetch fuel apiKey n =
           Some (Return (concat (map page_rows pages)), (n + length pages)%nat, evs)) /\
        requests evs = map page_url (page_numbers 1 (length pages)) /\
        length (requests evs) = length pages /\
        sleeps evs = []).
Proof.
  split.
  - intros allRows currentPage totalPages n n' data evs Hfetch.
    split; [apply has_next_spec|].
    apply (loop_body_eq nodeFetch apiKey _ _ _ _ _ _ _ Hfetch).
  - intros n pages Hne Hserve Hcursor.
    pose proof (serves_pages_direct pages 1 n Hne Hserve Hcursor) as Hchain.
    destruct (fetchAll_loop_run nodeFetch apiKey _ _ _ _ _ Hchain [] None)
      as (evs & Hrun & Hreq & Hsl).
    destruct (requests_one_each (request_headers apiKey)
                (page_numbers 1 (length pages))) as [Hr Hs].
    exists evs. split; [exact Hrun|].
    rewrite Hreq, Hsl, Hr, Hs. repeat split.
    unfold page_numbers. rewrite !length_map, length_seq. reflexivity.
Qed.

(** C7.  For the pages the fetcher hands over, in order, the driver
    returns the concatenation of their rows, page after page; the rows
    of a page are the flattener's output for each candidate of the page
    in payload order, against a lookup map that answers from that page's
    side-loaded entries of type "job-applications" only. *)
Theorem fetchAllCandidates_concatenates
    (n : nat) (pages : list ApiResponse) (evss : list (list event)) (n' : nat) :
  serves_pages nodeFetch apiKey 1 n pages evss n' ->
  (exists evs : list event,
     forall fuel : nat, (length pages <= fuel)%nat ->
       fetchAllCandidates nodeFetch fuel apiKey n =
       Some (Return (concat (map page_rows pages)), n', evs)) /\
  (forall data : ApiResponse,
     page_rows data =
     concat (map (fun candidate => parseCandidateToRows candidate (build_jobAppsMap data))
                 (resp_data data))) /\
  (forall (data : ApiResponse) (k : jsstring),
     build_jobAppsMap data !! k = side_loaded data k).
Proof.
  intros Hchain. split; [|split].
  - destruct (fetchAll_loop_run nodeFetch apiKey _ _ _ _ _ Hchain [] None)
      as (evs & Hrun & _).
    exists evs. exact Hrun.
  - reflexivity.
  - apply build_jobAppsMap_lookup.
Qed.

End DriverClaims.

Lemma fetchAllCandidates_pagination_witness :
  exists evs : list event,
    (forall fuel : nat, (2 <= fuel)%nat ->
       fetchAllCandidates (scripted [served sample_page_1; served sample_page_2])
                          fuel (lit "key") 0%nat =
       Some (Return (concat (map page_rows [sample_page_1; sample_page_2])), 2%nat, evs)) /\
    requests evs = [page_url 1; page_url 2].
Proof.
  destruct (proj2 (fetchAllCandidates_pagination
                     (scripted [served sample_page_1; served sample_page_2]) (lit "key"))
              0%nat [sample_page_1; sample_page_2])
    as (evs & Hrun & Hreq & _).
  - discriminate.
  - intros i d Hi. destruct i as [|[|i]]; simpl in Hi; try discriminate;
      injection Hi as <-; split; reflexivity.
  - intros i d Hi. destruct i as [|[|i]]; simpl in Hi; try discriminate;
      injection Hi as <-; simpl; split; intros H; try reflexivity; try lia; discriminate.
  - exists evs. split; [exact Hrun | exact Hreq].
Defined.

Lemma fetchAllCandidates_concatenates_witness :
  exists evs : list event,
    forall fuel : nat, (2 <= fuel)%nat ->
      fetchAllCandidates
        (scripted [rate_limited; served sample_page_1; served sample_page_2])
        fuel (lit "key") 0%nat =
      Some (Return (concat (map page_rows [sample_page_1; sample_page_2])), 3%nat, evs).
Proof.
  apply (fetchAllCandidates_concatenates
           (scripted [rate_limited; served sample_page_1; served sample_page_2])
           (lit "key") 0%nat [sample_page_1; sample_page_2]
           [ passes (lit "key") (page_url 1) 0 2; passes (lit "key") (page_url 2) 0 1 ]
           3%nat).
  apply serves_more with (n' := 2%nat); [reflexivity | reflexivity |].
  apply serves_last; reflexivity.
Defined.

(** The end-to-end example of the specification: two pages, three rows. *)
Example export_two_pages :
  (fun r => fst (fst r)) <$>
    fetchAllCandidates (scripted [served sample_page_1; served sample_page_2])
                       2 (lit "key") 0%nat
  = Some (Return
      [ {| candidate_id := lit "1"; first_name := lit "Ada"; last_name := lit "Lovelace";
           email := lit "ada@example.com"; job_application_id := lit "a";
           job_application_created_at := lit "2024-01-01" |};
        {| candidate_id := lit "1"; first_name := lit "Ada"; last_name := lit "Lovelace";
           email := lit "ada@example.com"; job_application_id := lit "b";
           job_application_created_at := lit "2024-01-02" |};
        {| candidate_id := lit "2"; first_name := []; last_name := [];
           email := []; job_application_id := [];
           job_application_created_at := [] |} ]).
Proof. vm_compute. reflexivity. Qed.

Example export_two_pages_csv :
  convertToCSV (page_rows sample_page_1 ++ page_rows sample_page_2)
  = [BOM] ++ header_line ++ [NEWLINE]
      ++ lit "1,Ada,Lovelace,ada@example.com,a,2024-01-01" ++ [NEWLINE]
      ++ lit "1,Ada,Lovelace,ada@example.com,b,2024-01-02" ++ [NEWLINE]
      ++ lit "2,,,,,".
Proof. vm_compute. reflexivity. Qed.

(** A field that holds a line feed keeps it inside its quotes: one row,
    two line feeds in the document. *)
Example newline_in_field :
  convertToCSV
    [ {| candidate_id := lit "1"; first_name := lit "a" ++ [NEWLINE] ++ lit "b";
         last_name := []; email := []; job_application_id := [];
         job_application_created_at := [] |} ]
  = [BOM] ++ header_line ++ [NEWLINE]
      ++ lit "1," ++ [DQUOTE] ++ lit "a" ++ [NEWLINE] ++ lit "b" ++ [DQUOTE] ++ lit ",,,,".
Proof. vm_compute. reflexivity. Qed.

(** ** Reading the document back *)

Lemma needs_quotes_false (f : jsstring) :
  needs_quotes f = false <-> (COMMA ∉ f) /\ (DQUOTE ∉ f) /\ (NEWLINE ∉ f).
Proof.
  pose proof (needs_quotes_spec f) as H.
  destruct (needs_quotes f); split; try discriminate; try tauto.
  intros _. repeat split; intros Hin; assert (false = true) by tauto; discriminate.
Qed.

Lemma needs_quotes_cons (x : N) (f : jsstring) :
  needs_quotes (x :: f) = false ->
  (x =? DQUOTE) = false /\ (x =? COMMA) = false /\ (x =? NEWLINE) = false /\
  needs_quotes f = false.
Proof.
  rewrite !needs_quotes_false, !not_elem_of_cons, !N.eqb_neq. intuition congruence.
Qed.

Lemma csv_run_ends (st : csv_state) (cur : jsstring) (rec : list jsstring)
    (recs : list (list jsstring)) (rest : jsstring) :
  st <> Quoted -> ends_field rest ->
  csv_run st cur rec recs rest = csv_continue cur rec recs rest.
Proof.
  intros Hst Hrest. destruct rest as [|c r].
  - destruct st; [reflexivity | reflexivity | congruence | reflexivity].
  - destruct Hrest as [-> | ->]; destruct st; try congruence; reflexivity.
Qed.

Lemma csv_run_plain (f : jsstring) :
  forall (st : csv_state) (cur : jsstring) (rec : list jsstring)
         (recs : list (list jsstring)) (rest : jsstring),
    st = FieldStart \/ st = Plain ->
    needs_quotes f = false -> ends_field rest ->
    csv_run st cur rec recs (f ++ rest) = csv_continue (cur ++ f) rec recs rest.
Proof.
  induction f as [|x f IH]; intros st cur rec recs rest Hst Hplain Hrest.
  - rewrite app_nil_r. apply csv_run_ends; [|exact Hrest].
    destruct Hst as [-> | ->]; discriminate.
  - apply needs_quotes_cons in Hplain as (Hq & Hc & Hn & Hplain).
    replace (cur ++ x :: f) with ((cur ++ [x]) ++ f) by (rewrite <- app_assoc; reflexivity).
    rewrite <- (IH Plain (cur ++ [x]) rec recs rest (or_intror eq_refl) Hplain Hrest).
    destruct Hst as [-> | ->]; cbn [app csv_run]; rewrite Hq, Hc, Hn; reflexivity.
Qed.

Lemma csv_run_quoted (f : jsstring) :
  forall (cur : jsstring) (rec : list jsstring)
         (recs : list (list jsstring)) (rest : jsstring),
    ends_field rest ->
    csv_run Quoted cur rec recs (double_quotes f ++ [DQUOTE] ++ rest)
    = csv_continue (cur ++ f) rec recs rest.
Proof.
  induction f as [|x f IH]; intros cur rec recs rest Hrest.
  - rewrite app_nil_r. cbn [double_quotes flat_map app csv_run].
    rewrite N.eqb_refl. apply csv_run_ends; [discriminate | exact Hrest].
  - replace (cur ++ x :: f) with ((cur ++ [x]) ++ f) by (rewrite <- app_assoc; reflexivity).
    rewrite <- (IH (cur ++ [x]) rec recs rest Hrest).
    unfold double_quotes at 1. cbn [flat_map]. fold (double_quotes f).
    destruct (decide (x = DQUOTE)) as [->|Hne].
    + cbn [app csv_run]. rewrite N.eqb_refl. reflexivity.
    + apply N.eqb_neq in Hne. cbn [app csv_run]. rewrite Hne. reflexivity.
Qed.

Lemma csv_run_field (f : jsstring) (rec : list jsstring)
    (recs : list (list jsstring)) (rest : jsstring) :
  ends_field rest ->
  csv_run FieldStart [] rec recs (escapeField (JString f) ++ rest)
  = csv_continue f rec recs rest.
Proof.
  intros Hrest. unfold escapeField. cbn [to_str].
  destruct (needs_quotes f) eqn:E.
  - rewrite replace_all_double, <- !app_assoc. cbn [app csv_run].
    rewrite N.eqb_refl. apply (csv_run_quoted f [] rec recs rest Hrest).
  - apply (csv_run_plain f FieldStart [] rec recs rest (or_introl eq_refl) E Hrest).
Qed.

Lemma encode_record_cons (f g : jsstring) (fs : list jsstring) :
  encode_record (f :: g :: fs)
  = escapeField (JString f) ++ [COMMA] ++ encode_record (g :: fs).
Proof. reflexivity. Qed.

Lemma csv_run_record (fs : list jsstring) :
  forall (f : jsstring) (rec : list jsstring) (recs : list (list jsstring)),
    csv_run FieldStart [] rec recs (encode_record (f :: fs))
      = Some (recs ++ [rec ++ f :: fs]) /\
    forall r : jsstring,
      csv_run FieldStart [] rec recs (encode_record (f :: fs) ++ NEWLINE :: r)
      = csv_run FieldStart [] [] (recs ++ [rec ++ f :: fs]) r.
Proof.
  induction fs as [|g fs IH]; intros f rec recs.
  - change (encode_record [f]) with (escapeField (JString f)). split.
    + rewrite <- (app_nil_r (escapeField (JString f))).
      rewrite csv_run_field by exact I. reflexivity.
    + intros r. rewrite csv_run_field by (right; reflexivity). reflexivity.
  - rewrite encode_record_cons.
    destruct (IH g (rec ++ [f]) recs) as [IHend IHnl].
    replace (rec ++ f :: g :: fs) with ((rec ++ [f]) ++ g :: fs)
      by (rewrite <- app_assoc; reflexivity).
    split.
    + rewrite csv_run_field by (left; reflexivity). exact IHend.
    + intros r.
      rewrite <- (app_assoc (escapeField (JString f))). cbn [app].
      rewrite csv_run_field by (left; reflexivity). apply IHnl.
Qed.

Lemma csv_run_records (records : list (list jsstring)) :
  forall recs : list (list jsstring),
    records <> [] -> Forall (fun fields => fields <> []) records ->
    csv_run FieldStart [] [] recs (join [NEWLINE] (map encode_record records))
    = Some (recs ++ records).
Proof.
  induction records as [|fields records IH]; intros recs Hne Hall; [congruence|].
  apply Forall_cons in Hall as [Hfields Hall].
  destruct fields as [|f fs]; [congruence|].
  destruct (csv_run_record fs f [] recs) as [Hend Hnl].
  destruct records as [|fields' records].
  - exact Hend.
  - change (join [NEWLINE] (map encode_record ((f :: fs) :: fields' :: records)))
      with (encode_record (f :: fs) ++ NEWLINE
              :: join [NEWLINE] (map encode_record (fields' :: records))).
    rewrite Hnl, IH by (congruence || exact Hall).
    rewrite <- app_assoc. reflexivity.
Qed.

Lemma csvLines_encode (rows : list CsvRow) :
  csvLines rows = map encode_record (headers :: map row_fields rows).
Proof.
  rewrite csvLines_spec. cbn [map]. rewrite map_map. f_equal.
Qed.

Lemma read_back (rows : list CsvRow) :
  parse_csv (convertToCSV rows) = Some (headers :: map row_fields rows).
Proof.
  unfold convertToCSV. rewrite csvLines_encode.
  cbn [app parse_csv]. rewrite N.eqb_refl.
  apply (csv_run_records (headers :: map row_fields rows) []); [discriminate|].
  apply Forall_cons. split; [discriminate|].
  apply Forall_forall. intros fields Hin.
  apply list_elem_of_fmap in Hin as (row & -> & _). discriminate.
Qed.

Lemma cons_eq_parts {A : Type} (x y : A) (l l' : list A) :
  x :: l = y :: l' -> x = y /\ l = l'.
Proof. intros [= -> ->]. split; reflexivity. Qed.

Lemma row_fields_inj (row row' : CsvRow) :
  row_fields row = row_fields row' -> row = row'.
Proof. destruct row, row'. cbn. intros [= -> -> -> -> -> ->]. reflexivity. Qed.

(** X2.  The document determines the rows: two row sequences with the
    same document are the same sequence. *)
Theorem convertToCSV_injective (rows rows' : list CsvRow) :
  convertToCSV rows = convertToCSV rows' -> rows = rows'.
Proof.
  intros Heq. pose proof (read_back rows) as H. rewrite Heq, read_back in H.
  injection H as H. revert rows' H Heq.
  induction rows as [|row rows IH]; intros [|row' rows'] H Heq; try discriminate.
  - reflexivity.
  - cbn [map] in H. apply cons_eq_parts in H as [Hrow Hrest].
    apply row_fields_inj in Hrow as ->. f_equal.
    apply IH; [exact Hrest|].
    unfold convertToCSV. rewrite !csvLines_encode. cbn [map]. rewrite Hrest. reflexivity.
Qed.

Lemma convertToCSV_injective_witness :
  [sample_row] = [sample_row].
Proof.
  apply (convertToCSV_injective [sample_row] [sample_row]). reflexivity.
Defined.

Lemma join_cons (sep : jsstring) (l : list jsstring) :
  forall x : jsstring, join sep (x :: l) = x ++ flat_map (fun y => sep ++ y) l.
Proof.
  induction l as [|y l IH]; intros x.
  - cbn. rewrite app_nil_r. reflexivity.
  - change (join sep (x :: y :: l)) with (x ++ sep ++ join sep (y :: l)).
    rewrite IH. cbn [flat_map]. rewrite <- app_assoc. reflexivity.
Qed.

Lemma join_app (sep : jsstring) (l l' : list jsstring) :
  l <> [] ->
  join sep (l ++ l') = join sep l ++ flat_map (fun x => sep ++ x) l'.
Proof.
  destruct l as [|x l]; [congruence|]. intros _.
  cbn [app]. rewrite !join_cons, flat_map_app, <- app_assoc. reflexivity.
Qed.

(** X3.  Rows added at the end only add text at the end: the document
    of [rows ++ more] is the document of [rows] followed by a line feed
    and the line of each added row. *)
Theorem convertToCSV_app (rows more : list CsvRow) :
  convertToCSV (rows ++ more)
  = convertToCSV rows ++ flat_map (fun row => [NEWLINE] ++ row_line row) more.
Proof.
  unfold convertToCSV. rewrite !csvLines_spec, map_app.
  change (header_line :: map row_line rows ++ map row_line more)
    with ((header_line :: map row_line rows) ++ map row_line more).
  rewrite join_app by discriminate. rewrite <- app_assoc. f_equal. f_equal.
  induction more as [|row more IH]; [reflexivity|].
  cbn [map flat_map]. rewrite IH. reflexivity.
Qed.

(** ** More on the flattener *)

(** X4.  A reference of a non-empty array whose id the lookup map holds
    gives a row whose timestamp is the [created-at] text of the entry
    found (empty when the entry has none), whatever the entry's own id
    and type and the reference's type are. *)
Theorem parseCandidateToRows_resolved
    (candidate : Candidate) (jobAppsMap : gmap (list N) JobApplication)
    (refs : list ResourceRef) (i : nat) (ref : ResourceRef) (jobApp : JobApplication) :
  jobAppRefs_of candidate = Some (RefArray refs) ->
  refs !! i = Some ref ->
  jobAppsMap !! ref_id ref = Some jobApp ->
  exists row : CsvRow,
    parseCandidateToRows candidate jobAppsMap !! i = Some row /\
    job_application_id row = ref_id ref /\
    job_application_created_at row = attr_text (attr_created_at (ja_attributes jobApp)).
Proof.
  intros Hrefs Hi Hfound.
  assert (refs <> []) as Hne by (intros ->; discriminate).
  rewrite (parse_array _ _ _ Hrefs Hne). eexists. split.
  - rewrite list_lookup_fmap, Hi. reflexivity.
  - cbn. rewrite Hfound. cbn. rewrite or_else_text. split; reflexivity.
Qed.

Lemma parseCandidateToRows_resolved_witness :
  exists row : CsvRow,
    parseCandidateToRows sample_candidate_1 (build_jobAppsMap sample_page_1) !! 1%nat
      = Some row /\
    job_application_id row = lit "b" /\
    job_application_created_at row = lit "2024-01-02".
Proof.
  apply (parseCandidateToRows_resolved sample_candidate_1 (build_jobAppsMap sample_page_1)
           [sample_ref "a"; sample_ref "b"] 1%nat (sample_ref "b")
           (sample_job_application "b" "2024-01-02"));
    [reflexivity | reflexivity | vm_compute; reflexivity].
Defined.

Lemma candidate_ids_of_rows (candidate : Candidate)
    (jobAppsMap : gmap (list N) JobApplication) :
  map candidate_id (parseCandidateToRows candidate jobAppsMap)
  = replicate (rows_of_candidate candidate) (cand_id candidate).
Proof.
  unfold rows_of_candidate.
  destruct (jobAppRefs_of candidate) as [[refs|ref]|] eqn:E.
  - destruct refs as [|r refs].
    + rewrite parse_placeholder; [reflexivity|]. intros refs Hrefs. congruence.
    + rewrite (parse_array _ _ _ E) by discriminate.
      rewrite map_map. cbn [candidate_id].
      replace (Nat.max 1 (length (r :: refs))) with (length (r :: refs)) by (simpl; lia).
      generalize (r :: refs). intros l. induction l as [|x l IH]; [reflexivity|].
      cbn. rewrite IH. reflexivity.
  - rewrite parse_placeholder; [reflexivity|]. intros refs Hrefs. congruence.
  - rewrite parse_placeholder; [reflexivity|]. intros refs Hrefs. congruence.
Qed.

(** X5.  No candidate of a page is dropped and no row is invented: the
    candidate ids of the page's rows are the ids of the page's
    candidates in payload order, each repeated once per reference of its
    array, or once when it has no array or an empty one; so a page gives
    at least as many rows as it has candidates. *)
Theorem page_rows_candidates (data : ApiResponse) :
  map candidate_id (page_rows data)
  = flat_map (fun candidate =>
                replicate (rows_of_candidate candidate) (cand_id candidate))
             (resp_data data) /\
  length (page_rows data) = sum_list (map rows_of_candidate (resp_data data)) /\
  (length (resp_data data) <= length (page_rows data))%nat.
Proof.
  unfold page_rows. generalize (build_jobAppsMap data) as m. intros m.
  induction (resp_data data) as [|candidate cs (IHids & IHlen & IHle)].
  - repeat split; reflexivity || (simpl; lia).
  - cbn [map concat flat_map].
    pose proof (candidate_ids_of_rows candidate m) as Hids.
    assert (length (parseCandidateToRows candidate m) = rows_of_candidate candidate) as Hlen.
    { rewrite <- (length_map candidate_id), Hids. apply length_replicate. }
    assert (1 <= rows_of_candidate candidate)%nat as Hpos.
    { unfold rows_of_candidate.
      destruct (jobAppRefs_of candidate) as [[refs|ref]|]; lia. }
    split; [|split].
    + rewrite map_app, Hids, IHids. reflexivity.
    + rewrite length_app, Hlen, IHlen. reflexivity.
    + rewrite length_app, Hlen. simpl. lia.
Qed.

(** ** More on the page fetcher *)

Lemma digits_inj (u v : Decimal.uint) : digits u = digits v -> u = v.
Proof.
  revert v. induction u as [|u IH|u IH|u IH|u IH|u IH|u IH|u IH|u IH|u IH|u IH];
    intros [|v|v|v|v|v|v|v|v|v|v]; cbn [digits]; intros H;
    try discriminate; try reflexivity;
    injection H as H; f_equal; apply IH, H.
Qed.

Lemma decimal_inj (p q : N) : decimal p = decimal q -> p = q.
Proof. intros H. apply DecimalN.Unsigned.to_uint_inj, digits_inj, H. Qed.

(** X6.  The URL of a page is the fixed candidates URL with
    side-loading of job applications and page size 30, ending in the
    page number in decimal; different page numbers give different
    URLs. *)
Theorem page_url_injective (p q : N) :
  page_url p =
    lit "https://api.teamtailor.com/v1/candidates?include=job-applications&page[size]=30&page[number]="
      ++ decimal p /\
  (page_url p = page_url q -> p = q).
Proof.
  split; [reflexivity|].
  intros H. apply decimal_inj.
  change (page_url p) with
    (lit "https://api.teamtailor.com/v1/candidates?include=job-applications&page[size]=30&page[number]="
       ++ decimal p) in H.
  change (page_url q) with
    (lit "https://api.teamtailor.com/v1/candidates?include=job-applications&page[size]=30&page[number]="
       ++ decimal q) in H.
  apply app_inv_head in H. exact H.
Qed.

Lemma page_url_injective_witness : (12 : N) = 12.
Proof. apply (proj2 (page_url_injective 12 12)). reflexivity. Defined.

Section FetcherFacts.

Variable nodeFetch : nat -> jsstring -> list (jsstring * jsstring) -> Response.
Variable apiKey : jsstring.
Variable pageNumber : N.

(** The responses to a page request start with some number of 429s, at
    most four of which matter. *)
Lemma leading_rate_limits (n : nat) :
  exists j : nat,
    (j <= 4)%nat /\
    (forall i : nat, (i < j)%nat ->
       status (answer nodeFetch apiKey pageNumber (n + i)) = 429) /\
    ((j <= 3)%nat -> status (answer nodeFetch apiKey pageNumber (n + j)) <> 429).
Proof.
  destruct (decide (status (answer nodeFetch apiKey pageNumber (n + 0)) = 429)) as [H0|H0];
    [|exists 0%nat; repeat split; [lia | intros i Hi; lia | intros _; exact H0]].
  destruct (decide (status (answer nodeFetch apiKey pageNumber (n + 1)) = 429)) as [H1|H1];
    [|exists 1%nat; repeat split;
      [lia | intros i Hi; assert (i = 0)%nat as -> by lia; exact H0 | intros _; exact H1]].
  destruct (decide (status (answer nodeFetch apiKey pageNumber (n + 2)) = 429)) as [H2|H2];
    [|exists 2%nat; repeat split;
      [lia | intros [|[|i]] Hi; [exact H0 | exact H1 | lia] | intros _; exact H2]].
  destruct (decide (status (answer nodeFetch apiKey pageNumber (n + 3)) = 429)) as [H3|H3];
    [|exists 3%nat; repeat split;
      [lia | intros [|[|[|i]]] Hi; [exact H0 | exact H1 | exact H2 | lia]
       | intros _; exact H3]].
  exists 4%nat. repeat split;
    [lia | intros [|[|[|[|i]]]] Hi; [exact H0 | exact H1 | exact H2 | exact H3 | lia]
     | intros Hle; lia].
Qed.

(** Every call ends after one to four passes. *)
Lemma fetchCandidatesPage_passes (n : nat) :
  exists (k : nat) (c : completion ApiResponse),
    (1 <= k <= 4)%nat /\
    fetchCandidatesPage nodeFetch apiKey pageNumber n
      = (c, (n + k)%nat, passes apiKey (page_url pageNumber) 0 k) /\
    (forall i : nat, (S i < k)%nat ->
       status (answer nodeFetch apiKey pageNumber (n + i)) = 429) /\
    ((c = Throw RateLimitExceeded /\ k = 4%nat /\
      status (answer nodeFetch apiKey pageNumber (n + 3)) = 429)
     \/
     (c = settle (answer nodeFetch apiKey pageNumber (n + (k - 1))) /\
      status (answer nodeFetch apiKey pageNumber (n + (k - 1))) <> 429)).
Proof.
  destruct (leading_rate_limits n) as (j & Hj & Hlim & Hnot).
  unfold answer in *.
  assert (j = 4 \/ j <= 3)%nat as [->|Hle] by lia.
  - exists 4%nat, (Throw RateLimitExceeded). split; [lia|]. split; [|split].
    + apply (attempt_loop_exhausted nodeFetch apiKey (page_url pageNumber) 3 0 None n Hlim).
    + intros i Hi. apply Hlim. lia.
    + left. repeat split. apply Hlim. lia.
  - specialize (Hnot Hle).
    pose proof (attempt_loop_settles nodeFetch apiKey (page_url pageNumber)
                  j (3 - j) 0 None n Hlim Hnot) as Hrun.
    replace (j + S (3 - j))%nat with 4%nat in Hrun by lia.
    exists (S j), (settle (nodeFetch (n + j)%nat (page_url pageNumber) (request_headers apiKey))).
    split; [lia|]. split; [exact Hrun|]. split.
    + intros i Hi. apply Hlim. lia.
    + right. replace (S j - 1)%nat with j by lia. split; [reflexivity | exact Hnot].
Qed.

End FetcherFacts.

(** ** More on the pagination driver *)

Lemma quiet_app (evs evs' : list event) : quiet (evs ++ evs') = quiet evs ++ quiet evs'.
Proof. apply omap_app. Qed.

Section DriverFacts.

Variable nodeFetch : nat -> jsstring -> list (jsstring * jsstring) -> Response.
Variable apiKey : jsstring.



(** X10.  The loop has no bound of its own: against a service that
    answers every request with a success whose page carries a cursor,
    the driver never returns, however many iterations it is given. *)
Theorem fetchAllCandidates_never_returns :
  (forall (m : nat) (url : jsstring) (hs : list (jsstring * jsstring)),
     ok (nodeFetch m url hs) = true /\ has_next (json (nodeFetch m url hs)) = true) ->
  forall (fuel : nat) (n : nat), fetchAllCandidates nodeFetch fuel apiKey n = None.
Proof.
  intros Hmore fuel n. unfold fetchAllCandidates.
  generalize (@nil CsvRow) as allRows. generalize 1 as p.
  generalize (@None N) as totalPages. revert n.
  induction fuel as [|fuel IH]; intros n totalPages p allRows; [reflexivity|].
  cbn [fetchAll_loop].
  destruct (Hmore n (page_url p) (request_headers apiKey)) as [Hok Hnext].
  pose proof (fetchCandidatesPage_direct nodeFetch apiKey p n Hok) as Hfetch.
  rewrite (loop_body_eq _ _ _ _ _ _ _ _ _ Hfetch).
  unfold answer. rewrite Hnext, IH. reflexivity.
Qed.

Lemma fetchAll_loop_estimate (fuel : nat) :
  forall (allRows : list CsvRow) (p : N) (totalPages totalPages' : option N) (n : nat),
    (fun r : completion (list CsvRow) * nat * list event =>
       (r.1.1, r.1.2, quiet r.2))
      <$> fetchAll_loop nodeFetch fuel apiKey allRows p totalPages n
    = (fun r : completion (list CsvRow) * nat * list event =>
         (r.1.1, r.1.2, quiet r.2))
        <$> fetchAll_loop nodeFetch fuel apiKey allRows p totalPages' n.
Proof.
  induction fuel as [|fuel IH]; intros allRows p totalPages totalPages' n; [reflexivity|].
  cbn [fetchAll_loop].
  destruct (fetchCandidatesPage nodeFetch apiKey p n) as [[c n'] evs] eqn:Hfetch.
  rewrite !(loop_body_eq _ _ _ _ _ _ _ _ _ Hfetch).
  destruct c as [data|e]; [|reflexivity].
  destruct (has_next data); [|reflexivity].
  specialize (IH (allRows ++ page_rows data) (p + 1)
                 (update_totalPages totalPages data)
                 (update_totalPages totalPages' data) n').
  destruct (fetchAll_loop nodeFetch fuel apiKey _ _ (update_totalPages totalPages data) n')
    as [[[r n1] evs1]|];
    destruct (fetchAll_loop nodeFetch fuel apiKey _ _ (update_totalPages totalPages' data) n')
      as [[[r' n1'] evs1']|];
    cbn -[quiet] in IH |- *; try discriminate; [|reflexivity].
  injection IH as -> -> Hq.
  change (quiet (fetching_line p totalPages :: evs ++ evs1)) with (quiet (evs ++ evs1)).
  change (quiet (fetching_line p totalPages' :: evs ++ evs1')) with (quiet (evs ++ evs1')).
  rewrite !quiet_app, Hq. reflexivity.
Qed.

(** X11.  The total-page estimate is used for the progress label and
    nothing else: started with any two estimates, the loop ends the same
    way, with the same rows or error after the same requests and waits;
    the traces differ in log lines at most. *)
Theorem fetchAll_loop_ignores_estimate
    (fuel : nat) (allRows : list CsvRow) (p : N)
    (totalPages totalPages' : option N) (n : nat) :
  (fun r : completion (list CsvRow) * nat * list event =>
     (r.1.1, r.1.2, quiet r.2))
    <$> fetchAll_loop nodeFetch fuel apiKey allRows p totalPages n
  = (fun r : completion (list CsvRow) * nat * list event =>
       (r.1.1, r.1.2, quiet r.2))
      <$> fetchAll_loop nodeFetch fuel apiKey allRows p totalPages' n
  /\
  (forall evs : list event,
     requests (quiet evs) = requests evs /\ sleeps (quiet evs) = sleeps evs).
Proof.
  split; [apply fetchAll_loop_estimate|].
  intros evs. unfold quiet, requests, sleeps.
  induction evs as [|[line|ms|url hs] evs [IHr IHs]];
    cbn; rewrite ?IHr, ?IHs; split; reflexivity.
Qed.

End DriverFacts.

(** X12.  From a page whose metadata gives a positive record count of
    at most [MAX_SAFE_INTEGER] (beyond it the division of doubles in the
    source rounds, and the estimate can be one page short), a first
    estimate is made, and it is the least number of pages of 30 that
    hold that many records; once made, an estimate is never changed by
    a later page. *)
Theorem update_totalPages_estimate (data : ApiResponse) (meta : Meta) (rc : N) :
  resp_meta data = Some meta ->
  meta_record_count meta = Some rc ->
  0 < rc ->
  rc <= MAX_SAFE_INTEGER ->
  exists tp : N,
    update_totalPages None data = Some tp /\
    30 * (tp - 1) < rc <= 30 * tp /\
    (forall data' : ApiResponse, update_totalPages (Some tp) data' = Some tp).
Proof.
  intros Hmeta Hrc Hpos Hsafe. exists ((rc + PAGE_SIZE - 1) / PAGE_SIZE).
  split; [|split].
  - unfold update_totalPages. rewrite Hmeta, Hrc.
    assert ((rc =? 0) = false) as -> by (apply N.eqb_neq; lia). reflexivity.
  - unfold PAGE_SIZE.
    pose proof (N.div_mod (rc + 30 - 1) 30 ltac:(lia)) as Hdiv.
    pose proof (N.mod_lt (rc + 30 - 1) 30 ltac:(lia)) as Hmod.
    assert (1 <= (rc + 30 - 1) / 30) as Hone.
    { apply N.div_le_lower_bound; lia. }
    revert Hdiv Hmod Hone.
    generalize ((rc + 30 - 1) / 30) as q, ((rc + 30 - 1) mod 30) as r.
    intros q r Hdiv Hmod Hone. lia.
  - intros data'. reflexivity.
Qed.

Lemma update_totalPages_estimate_witness :
  exists tp : N, update_totalPages None sample_page_1 = Some tp /\ 30 * (tp - 1) < 31 <= 30 * tp.
Proof.
  destruct (update_totalPages_estimate sample_page_1
              {| meta_record_count := Some 31; meta_page_count := None |} 31)
    as (tp & Htp & Hb & _);
    [reflexivity | reflexivity | reflexivity | vm_compute; discriminate |].
  exists tp. split; [exact Htp | exact Hb].
Defined.


Lemma fetchAllCandidates_never_returns_witness :
  fetchAllCandidates always_more 5 (lit "key") 0%nat = None.
Proof.
  apply (fetchAllCandidates_never_returns always_more (lit "key")).
  intros m url hs. split; reflexivity.
Defined.

(** ** The [.env] loader *)

Lemma trimStart_idem (s : jsstring) : trimStart (trimStart s) = trimStart s.
Proof.
  induction s as [|x s IH]; [reflexivity|]. cbn [trimStart].
  destruct (is_whitespace x) eqn:E; [exact IH|]. cbn [trimStart]. rewrite E. reflexivity.
Qed.

Lemma trimEnd_idem (s : jsstring) : trimEnd (trimEnd s) = trimEnd s.
Proof.
  induction s as [|x s IH]; [reflexivity|]. cbn [trimEnd].
  destruct (trimEnd s) as [|y t] eqn:E.
  - destruct (is_whitespace x) eqn:Ex; [reflexivity|]. cbn [trimEnd]. rewrite Ex. reflexivity.
  - cbn [trimEnd]. cbn [trimEnd] in IH.
    change (match trimEnd t with
            | [] => if is_whitespace y then [] else [y]
            | _ :: _ => y :: trimEnd t
            end) with (trimEnd (y :: t)) in *.
    rewrite IH. reflexivity.
Qed.

Lemma trimEnd_fixed_tail (x : N) (s : jsstring) :
  trimEnd (x :: s) = x :: s -> trimEnd s = s.
Proof.
  cbn [trimEnd]. destruct (trimEnd s) as [|y t] eqn:E.
  - destruct (is_whitespace x); [discriminate|]. intros [= <-]. reflexivity.
  - intros [= <-]. reflexivity.
Qed.

Lemma trimEnd_trimStart (s : jsstring) :
  trimEnd s = s -> trimEnd (trimStart s) = trimStart s.
Proof.
  induction s as [|x s IH]; intros Hs; [reflexivity|]. cbn [trimStart].
  destruct (is_whitespace x); [|exact Hs].
  apply IH, (trimEnd_fixed_tail x s Hs).
Qed.

Lemma trim_idem (s : jsstring) : trim (trim s) = trim s.
Proof.
  unfold trim. rewrite (trimEnd_trimStart (trimEnd s)) by apply trimEnd_idem.
  apply trimStart_idem.
Qed.

Lemma trimEnd_snoc (c : N) (s : jsstring) :
  is_whitespace c = true -> trimEnd (s ++ [c]) = trimEnd s.
Proof.
  intros Hc. induction s as [|x s IH].
  - cbn. rewrite Hc. reflexivity.
  - cbn [app trimEnd]. rewrite IH. reflexivity.
Qed.

Lemma trim_snoc (c : N) (s : jsstring) :
  is_whitespace c = true -> trim (s ++ [c]) = trim s.
Proof. intros Hc. unfold trim. rewrite trimEnd_snoc by exact Hc. reflexivity. Qed.

Lemma trim_cons (c : N) (s : jsstring) :
  is_whitespace c = true -> trim (c :: s) = trim s.
Proof.
  intros Hc. unfold trim. cbn [trimEnd].
  destruct (trimEnd s) as [|y t]; cbn [trimStart]; rewrite Hc; reflexivity.
Qed.

Lemma indexOf_from_absent (c : N) (s : jsstring) (i : Z) :
  c ∉ s -> indexOf_from c s i = (-1)%Z.
Proof.
  revert i. induction s as [|x s IH]; intros i Hnot; [reflexivity|].
  apply not_elem_of_cons in Hnot as [Hne Hnot]. cbn [indexOf_from].
  assert ((x =? c) = false) as -> by (apply N.eqb_neq; congruence).
  apply IH, Hnot.
Qed.

Lemma indexOf_from_first (c : N) (k v : jsstring) (i : Z) :
  c ∉ k -> indexOf_from c (k ++ c :: v) i = (i + Z.of_nat (length k))%Z.
Proof.
  revert i. induction k as [|x k IH]; intros i Hnot.
  - cbn. rewrite N.eqb_refl. lia.
  - apply not_elem_of_cons in Hnot as [Hne Hnot]. cbn [app indexOf_from].
    assert ((x =? c) = false) as -> by (apply N.eqb_neq; congruence).
    rewrite IH by exact Hnot. cbn [length]. lia.
Qed.

(** A line without [=] changes nothing. *)
Lemma env_line_plain (env : gmap (list N) (list N)) (line : jsstring) :
  EQUALS ∉ line -> env_line env line = env.
Proof.
  intros Hnot. unfold env_line, indexOf.
  rewrite indexOf_from_absent by exact Hnot. reflexivity.
Qed.

(** A line is cut at its first [=]. *)
Lemma env_line_assignment (env : gmap (list N) (list N)) (k v : jsstring) :
  EQUALS ∉ k ->
  env_line env (k ++ EQUALS :: v) =
  if negb (bool_decide (trim k = [])) && negb (startsWith HASH (trim k))
  then <[trim k := trim v]> env
  else env.
Proof.
  intros Hnot. unfold env_line, indexOf.
  rewrite indexOf_from_first by exact Hnot.
  assert ((0 + Z.of_nat (length k) =? -1)%Z = false) as -> by (apply Z.eqb_neq; lia).
  replace (Z.to_nat (0 + Z.of_nat (length k))) with (length k) by lia.
  replace (Z.to_nat (0 + Z.of_nat (length k) + 1)) with (S (length k)) by lia.
  rewrite take_app_length.
  replace (drop (S (length k)) (k ++ EQUALS :: v)) with v; [reflexivity|].
  change (k ++ EQUALS :: v) with (k ++ [EQUALS] ++ v).
  rewrite app_assoc.
  rewrite (drop_app_length' (k ++ [EQUALS]) v); [reflexivity|].
  rewrite length_app. simpl. lia.
Qed.

Lemma line_cases (line : jsstring) :
  EQUALS ∉ line \/
  exists k v : jsstring, line = k ++ EQUALS :: v /\ EQUALS ∉ k.
Proof.
  destruct (decide (EQUALS ∈ line)) as [Hin|Hnot]; [right | left; exact Hnot].
  apply list_elem_of_split_l in Hin as (k & v & -> & Hk). exists k, v. split; [reflexivity | exact Hk].
Qed.

Lemma env_line_clean (env : gmap (list N) (list N)) (line k : jsstring) :
  env_line env line !! k <> env !! k ->
  k <> [] /\ startsWith HASH k = false /\ trim k = k /\
  exists v : jsstring, env_line env line !! k = Some v /\ trim v = v.
Proof.
  destruct (line_cases line) as [Hplain | (k0 & v0 & -> & Hk0)].
  - rewrite env_line_plain by exact Hplain. congruence.
  - rewrite env_line_assignment by exact Hk0.
    destruct (bool_decide (trim k0 = [])) eqn:Hempty; cbn [negb andb]; [congruence|].
    destruct (startsWith HASH (trim k0)) eqn:Hhash; cbn [negb]; [congruence|].
    destruct (decide (trim k0 = k)) as [<-|Hne].
    + intros _. rewrite lookup_insert_eq.
      apply bool_decide_eq_false in Hempty.
      repeat split; [exact Hempty | exact Hhash | apply trim_idem |].
      exists (trim v0). split; [reflexivity | apply trim_idem].
    + rewrite lookup_insert_ne by exact Hne. congruence.
Qed.

(** X13.  For a file without a [NUL] unit (the environment of the
    operating system cuts names and values there), the loader only ever
    sets keys that are non-empty, trimmed and do not start with [#],
    and only to trimmed values: an entry of the environment that
    differs after the load has such a key and holds such a value. *)
Theorem loadEnv_sets_clean_entries
    (file : option jsstring) (env : gmap (list N) (list N)) (k : jsstring) :
  (forall envContent : jsstring, file = Some envContent -> NUL ∉ envContent) ->
  loadEnv file env !! k <> env !! k ->
  k <> [] /\ startsWith HASH k = false /\ trim k = k /\
  exists v : jsstring, loadEnv file env !! k = Some v /\ trim v = v.
Proof.
  intros _.
  destruct file as [envContent|]; cbn [loadEnv]; [|congruence].
  generalize (split NEWLINE envContent) as lines. intros lines. revert env.
  induction lines as [|line lines IH]; intros env Hdiff; [cbn in Hdiff; congruence|].
  cbn [fold_left] in *.
  destruct (decide (fold_left env_line lines (env_line env line) !! k
                    = env_line env line !! k)) as [Heq|Hne].
  - rewrite Heq in *. apply env_line_clean, Hdiff.
  - apply IH, Hne.
Qed.

Lemma loadEnv_sets_clean_entries_witness :
  exists v : jsstring,
    loadEnv (Some sample_env_file) ∅ !! lit "PORT" = Some v /\ trim v = v.
Proof.
  destruct (loadEnv_sets_clean_entries (Some sample_env_file) ∅ (lit "PORT"))
    as (_ & _ & _ & Hv); [| vm_compute; discriminate | exact Hv].
  intros envContent [= <-].
  apply (bool_decide_unpack (NUL ∉ sample_env_file)). vm_compute. exact I.
Defined.

Lemma split_nonempty (c : N) (s : jsstring) : split c s <> [].
Proof.
  destruct s as [|x s]; [discriminate|]. cbn [split].
  destruct (x =? c); [discriminate|]. destruct (split c s); discriminate.
Qed.

Lemma split_single (c : N) (line : jsstring) : c ∉ line -> split c line = [line].
Proof.
  induction line as [|x line IH]; intros Hnot; [reflexivity|].
  apply not_elem_of_cons in Hnot as [Hne Hnot]. cbn [split].
  assert ((x =? c) = false) as -> by (apply N.eqb_neq; congruence).
  rewrite IH by exact Hnot. reflexivity.
Qed.

Lemma split_last_line (c : N) (content line : jsstring) :
  c ∉ line -> split c (content ++ c :: line) = split c content ++ [line].
Proof.
  intros Hnot. induction content as [|x content IH].
  - cbn [app split]. rewrite N.eqb_refl, split_single by exact Hnot. reflexivity.
  - cbn [app split]. rewrite IH. destruct (x =? c); [reflexivity|].
    pose proof (split_nonempty c content) as Hne.
    destruct (split c content) as [|l ls]; [congruence | reflexivity].
Qed.

(** X14.  In a file without a [NUL] unit, a line [KEY=value] added at
    the end sets the trimmed key to the trimmed value, over whatever
    the lines before and the environment gave it, and leaves every
    other key as the file without the line gives it; the line is cut at
    its first [=], so the value may itself hold [=]. *)
Theorem loadEnv_last_line_wins
    (content k v : jsstring) (env : gmap (list N) (list N)) :
  NUL ∉ content -> NUL ∉ k -> NUL ∉ v ->
  EQUALS ∉ k -> NEWLINE ∉ k -> NEWLINE ∉ v ->
  trim k <> [] -> startsWith HASH (trim k) = false ->
  loadEnv (Some (content ++ [NEWLINE] ++ k ++ [EQUALS] ++ v)) env
  = <[trim k := trim v]> (loadEnv (Some content) env).
Proof.
  intros _ _ _ Heq Hnlk Hnlv Hkey Hhash. cbn [loadEnv].
  change (content ++ [NEWLINE] ++ k ++ [EQUALS] ++ v)
    with (content ++ NEWLINE :: (k ++ EQUALS :: v)).
  rewrite split_last_line.
  2:{ apply not_elem_of_app. split; [exact Hnlk|].
      apply not_elem_of_cons. split; [discriminate | exact Hnlv]. }
  rewrite fold_left_app. cbn [fold_left].
  rewrite env_line_assignment by exact Heq.
  rewrite bool_decide_eq_false_2 by exact Hkey. rewrite Hhash. reflexivity.
Qed.

Lemma loadEnv_last_line_wins_witness :
  loadEnv (Some (sample_env_file ++ [NEWLINE] ++ lit " PORT " ++ [EQUALS] ++ lit "a=b ")) ∅
    !! lit "PORT" = Some (lit "a=b").
Proof.
  rewrite (loadEnv_last_line_wins sample_env_file (lit " PORT ") (lit "a=b ") ∅).
  - apply lookup_insert_eq.
  - apply (bool_decide_unpack (NUL ∉ sample_env_file)). vm_compute. exact I.
  - apply (bool_decide_unpack (NUL ∉ lit " PORT ")). vm_compute. exact I.
  - apply (bool_decide_unpack (NUL ∉ lit "a=b ")). vm_compute. exact I.
  - apply (bool_decide_unpack (EQUALS ∉ lit " PORT ")). vm_compute. exact I.
  - apply (bool_decide_unpack (NEWLINE ∉ lit " PORT ")). vm_compute. exact I.
  - apply (bool_decide_unpack (NEWLINE ∉ lit "a=b ")). vm_compute. exact I.
  - vm_compute. discriminate.
  - reflexivity.
Defined.

Lemma whitespace_not_equals (c : N) : is_whitespace c = true -> c <> EQUALS.
Proof. intros Hc ->. vm_compute in Hc. discriminate. Qed.

Lemma env_line_trailing_space (env : gmap (list N) (list N)) (line : jsstring) (c : N) :
  is_whitespace c = true -> env_line env (line ++ [c]) = env_line env line.
Proof.
  intros Hc. pose proof (whitespace_not_equals c Hc) as Hne.
  destruct (line_cases line) as [Hplain | (k & v & -> & Hk)].
  - rewrite !env_line_plain; [reflexivity | exact Hplain |].
    apply not_elem_of_app. split; [exact Hplain|].
    apply not_elem_of_cons. split; [congruence | apply not_elem_of_nil].
  - rewrite <- app_assoc. cbn [app].
    rewrite !env_line_assignment by exact Hk.
    rewrite trim_snoc by exact Hc. reflexivity.
Qed.

Lemma env_line_leading_space (env : gmap (list N) (list N)) (line : jsstring) (c : N) :
  is_whitespace c = true -> env_line env (c :: line) = env_line env line.
Proof.
  intros Hc. pose proof (whitespace_not_equals c Hc) as Hne.
  destruct (line_cases line) as [Hplain | (k & v & -> & Hk)].
  - rewrite !env_line_plain; [reflexivity | exact Hplain |].
    apply not_elem_of_cons. split; [congruence | exact Hplain].
  - change (c :: k ++ EQUALS :: v) with ((c :: k) ++ EQUALS :: v).
    rewrite !env_line_assignment; [| exact Hk |
      apply not_elem_of_cons; split; [congruence | exact Hk]].
    rewrite trim_cons by exact Hc. reflexivity.
Qed.

Lemma prepend_line_nil (lines : list jsstring) :
  lines <> [] -> prepend_line [] lines = lines.
Proof. destruct lines; [congruence | reflexivity]. Qed.

Lemma prepend_line_twice (pre : jsstring) (x : N) (lines : list jsstring) :
  prepend_line pre (prepend_line [x] lines) = prepend_line (pre ++ [x]) lines.
Proof. destruct lines; cbn; rewrite <- ?app_assoc; reflexivity. Qed.

Lemma split_cons_other (c x : N) (s : jsstring) :
  x <> c -> split c (x :: s) = prepend_line [x] (split c s).
Proof.
  intros Hne. cbn [split]. apply N.eqb_neq in Hne. rewrite Hne.
  destruct (split c s); reflexivity.
Qed.

Lemma loadEnv_crlf_lines (s : jsstring) :
  forall (pre : jsstring) (env : gmap (list N) (list N)),
    fold_left env_line (prepend_line pre (split NEWLINE (crlf s))) env
    = fold_left env_line (prepend_line pre (split NEWLINE s)) env.
Proof.
  induction s as [|x s IH]; intros pre env; [reflexivity|].
  unfold crlf. cbn [flat_map]. fold (crlf s).
  destruct (N.eqb_spec x NEWLINE) as [->|Hne].
  - change ([CR; NEWLINE] ++ crlf s) with (CR :: NEWLINE :: crlf s).
    rewrite (split_cons_other NEWLINE CR) by discriminate.
    cbn [split]. rewrite N.eqb_refl. cbn [prepend_line fold_left app].
    rewrite app_nil_r, env_line_trailing_space by reflexivity.
    pose proof (IH [] (env_line env pre)) as IH0.
    rewrite !prepend_line_nil in IH0 by apply split_nonempty. exact IH0.
  - cbn [app]. rewrite !split_cons_other by exact Hne.
    rewrite !prepend_line_twice. apply IH.
Qed.

(** X15.  A file with Windows line endings loads as the same file with
    line feeds only: putting a carriage return before every line feed
    changes nothing in the environment the loader leaves. *)
Theorem loadEnv_crlf (content : jsstring) (env : gmap (list N) (list N)) :
  loadEnv (Some (crlf content)) env = loadEnv (Some content) env.
Proof.
  cbn [loadEnv]. pose proof (loadEnv_crlf_lines content [] env) as H.
  rewrite !prepend_line_nil in H by apply split_nonempty. exact H.
Qed.

(** X16.  White space in front of the file, a byte-order mark included,
    is ignored. *)
Theorem loadEnv_leading_space (c : N) (content : jsstring)
    (env : gmap (list N) (list N)) :
  is_whitespace c = true ->
  loadEnv (Some (c :: content)) env = loadEnv (Some content) env /\
  is_whitespace BOM = true.
Proof.
  intros Hc. split; [|reflexivity]. cbn [loadEnv].
  destruct (N.eqb_spec c NEWLINE) as [->|Hne].
  - cbn [split]. rewrite N.eqb_refl. cbn [fold_left].
    rewrite env_line_plain by apply not_elem_of_nil. reflexivity.
  - rewrite split_cons_other by exact Hne.
    pose proof (split_nonempty NEWLINE content) as Hsplit.
    destruct (split NEWLINE content) as [|l ls]; [congruence|].
    cbn [prepend_line fold_left app].
    rewrite env_line_leading_space by exact Hc. reflexivity.
Qed.

Lemma loadEnv_leading_space_witness :
  loadEnv (Some (BOM :: sample_env_file)) ∅ = loadEnv (Some sample_env_file) ∅.
Proof. apply (loadEnv_leading_space BOM sample_env_file ∅). reflexivity. Defined.

(** ** The export handler *)

Lemma passes_ask (apiKey : jsstring) (q : N) (count : nat) :
  forall attempt : nat,
    Forall (asks_with apiKey) (passes apiKey (page_url q) attempt count).
Proof.
  unfold passes. induction count as [|count IH]; intros attempt; [constructor|].
  cbn [seq flat_map]. apply Forall_app. split; [|apply IH].
  apply Forall_app. split.
  - unfold wait_before. destruct (0 <? attempt)%nat; repeat constructor.
  - repeat constructor. exists q. reflexivity.
Qed.

Section HandlerFacts.

Variable nodeFetch : nat -> jsstring -> list (jsstring * jsstring) -> Response.

Lemma fetchAll_loop_asks (apiKey : jsstring) (fuel : nat) :
  forall (allRows : list CsvRow) (p : N) (totalPages : option N) (n : nat)
         (r : completion (list CsvRow)) (n' : nat) (evs : list event),
    fetchAll_loop nodeFetch fuel apiKey allRows p totalPages n = Some (r, n', evs) ->
    Forall (asks_with apiKey) evs.
Proof.
  induction fuel as [|fuel IH]; intros allRows p totalPages n r n' evs Hrun;
    [discriminate|].
  cbn [fetchAll_loop] in Hrun.
  destruct (fetchCandidatesPage_passes nodeFetch apiKey p n) as (k & c & _ & Hfetch & _).
  rewrite (loop_body_eq _ _ _ _ _ _ _ _ _ Hfetch) in Hrun.
  pose proof (passes_ask apiKey p k 0) as Hpass.
  destruct c as [data|e].
  - destruct (has_next data).
    + destruct (fetchAll_loop nodeFetch fuel apiKey _ _ _ (n + k)) as [[[r1 n1] evs1]|] eqn:E;
        [|discriminate].
      injection Hrun as <- <- <-.
      constructor; [exact I|].
      apply Forall_app. split; [exact Hpass|].
      apply (IH _ _ _ _ _ _ _ E).
    + injection Hrun as <- <- <-. constructor; [exact I | exact Hpass].
  - injection Hrun as <- <- <-. constructor; [exact I | exact Hpass].
Qed.

(** X17.  Without a usable key the handler answers 400 and never
    contacts the upstream service: this is so when the request carries
    no key and the start-up key is absent, empty or the placeholder
    text, and also when the request's own key is the placeholder text,
    whatever the start-up key is. *)
Theorem export_handler_missing_key
    (fuel : nat) (header : jsval) (API_KEY : option jsstring) (now : jsstring) (n : nat) :
  header = JString placeholder_key \/
  (truthy header = false /\
   (API_KEY = None \/ API_KEY = Some [] \/ API_KEY = Some placeholder_key)) ->
  export_handler nodeFetch fuel header API_KEY now n = Some (missing_key_reply, n, []).
Proof.
  intros [-> | (Hfalsy & [-> | [-> | ->]])]; unfold export_handler, request_key;
    rewrite ?Hfalsy; reflexivity.
Qed.



(** X20.  Every request the handler sends upstream asks for a page of
    candidates and carries one and the same key, which is the request's
    own key when it has one and the start-up key otherwise, and is never
    empty nor the placeholder text. *)
Theorem export_handler_key
    (fuel : nat) (header : jsval) (API_KEY : option jsstring) (now : jsstring) (n : nat)
    (reply : Reply) (n' : nat) (evs : list server_event)
    (url : jsstring) (hs : list (jsstring * jsstring)) :
  export_handler nodeFetch fuel header API_KEY now n = Some (reply, n', evs) ->
  (url, hs) ∈ sent_requests evs ->
  exists k : jsstring,
    (if truthy header then header = JString k else API_KEY = Some k) /\
    k <> [] /\ k <> placeholder_key /\
    hs = request_headers k /\
    exists q : N, url = page_url q.
Proof.
  intros Hrun Hin. unfold export_handler in Hrun. cbv zeta in Hrun.
  destruct (key_missing (request_key header API_KEY)) eqn:Hmiss.
  { injection Hrun as <- <- <-. cbn in Hin. apply elem_of_nil in Hin. contradiction. }
  destruct (request_key header API_KEY) as [k|] eqn:Hkey; [|discriminate].
  exists k.
  assert (k <> [] /\ k <> placeholder_key) as [Hne Hph].
  { cbn [key_missing] in Hmiss. destruct k as [|x k]; [discriminate|].
    apply bool_decide_eq_false in Hmiss. split; [discriminate | exact Hmiss]. }
  assert (if truthy header then header = JString k else API_KEY = Some k) as Hsrc.
  { unfold request_key in Hkey. destruct header as [| |s]; cbn in *; try exact Hkey.
    destruct s; [exact Hkey | congruence]. }
  split; [exact Hsrc|]. split; [exact Hne|]. split; [exact Hph|].
  cbn [default] in Hrun. unfold id in Hrun.
  destruct (fetchAllCandidates nodeFetch fuel k n) as [[[c n1] evs1]|] eqn:E; [|discriminate].
  pose proof (fetchAll_loop_asks k fuel _ _ _ _ _ _ _ E) as Hall.
  assert (Core (EvRequest url hs) ∈ map Core evs1) as Hcore.
  { unfold sent_requests in Hin. apply list_elem_of_omap in Hin as (e & He & Hsome).
    destruct c as [rows|[msg]]; injection Hrun as <- <- <-;
      cbn [app] in He; apply elem_of_cons in He as [->|He]; try discriminate;
      apply elem_of_app in He as [He|He];
      try (destruct e as [[line|ms|url' hs']|]; try discriminate;
           injection Hsome as -> ->; exact He);
      repeat (apply elem_of_cons in He as [->|He]; try discriminate);
      apply elem_of_nil in He; contradiction. }
  apply list_elem_of_fmap in Hcore as (e & [= <-] & He).
  apply (proj1 (Forall_forall _ _) Hall) in He. exact He.
Qed.

End HandlerFacts.

Lemma export_handler_missing_key_witness :
  export_handler always_more 0 (JString placeholder_key) (Some (lit "real-key")) [] 0%nat
  = Some (missing_key_reply, 0%nat, []).
Proof.
  apply (export_handler_missing_key always_more 0 (JString placeholder_key)
           (Some (lit "real-key")) [] 0%nat).
  left. reflexivity.
Defined.



Lemma export_handler_key_witness :
  exists k : jsstring,
    JString (lit "abc") = JString k /\
    request_headers (lit "abc") = request_headers k.
Proof.
  destruct (export_handler_key (scripted [served sample_page_2]) 1
              (JString (lit "abc")) (Some (lit "start-up-key")) [] 0%nat
              {| reply_status := 200;
                 reply_headers :=
                   [ (lit "Content-Type", lit "text/csv; charset=utf-8");
                     (lit "Content-Disposition",
                      lit "attachment; filename=" ++ [DQUOTE]
                        ++ lit "teamtailor-candidates-.csv" ++ [DQUOTE]) ];
                 reply_body_of := Sent (convertToCSV (page_rows sample_page_2)) |}
              1%nat
              [ Core (EvLog (lit "[Export] Fetching candidates..."));
                Core (EvLog (lit "  Fetching page 1..."));
                Core (EvRequest (page_url 1) (request_headers (lit "abc")));
                Core (EvLog (lit "[Export] Got 1 rows. Generating CSV..."));
                Core (EvLog (lit "[Export] CSV sent: teamtailor-candidates-.csv")) ]
              (page_url 1) (request_headers (lit "abc")))
    as (k & Hsrc & _ & _ & Hhs & _).
  - vm_compute. reflexivity.
  - unfold sent_requests. cbn [omap]. left.
  - exists k. split; [exact Hsrc | exact Hhs].
Defined.

(** ** The cost of an export *)

Lemma requests_of_passes (apiKey url : jsstring) (count : nat) :
  forall attempt : nat, length (requests (passes apiKey url attempt count)) = count.
Proof.
  unfold passes. induction count as [|count IH]; intros attempt; [reflexivity|].
  cbn [seq flat_map]. rewrite !requests_app, !length_app, IH.
  unfold wait_before. destruct (0 <? attempt)%nat; reflexivity.
Qed.

Section Cost.

Variable nodeFetch : nat -> jsstring -> list (jsstring * jsstring) -> Response.
Variable apiKey : jsstring.

Lemma serves_pages_cost (p : N) (n : nat) (pages : list ApiResponse)
    (evss : list (list event)) (n' : nat) :
  serves_pages nodeFetch apiKey p n pages evss n' ->
  n' = (n + length (concat (map requests evss)))%nat /\
  (length pages <= length (concat (map requests evss)) <= 4 * length pages)%nat.
Proof.
  induction 1 as [p n d n' evs Hfetch Hnext
                 |p n d n' evs ds evss n'' Hfetch Hnext Hrest (IHn & IHlen)];
    destruct (fetchCandidatesPage_passes nodeFetch apiKey p n) as (k & c & Hk & Hrun & _);
    rewrite Hrun in Hfetch; injection Hfetch as _ <- <-;
    cbn [map concat length]; rewrite ?app_nil_r, ?length_app, requests_of_passes.
  - split; lia.
  - split; lia.
Qed.

(** X21.  An export of [m] pages costs between [m] and [4 m] requests:
    when the fetcher hands over the pages of a chain, the driver returns
    after at least one and at most four requests per page, and the
    service has answered exactly the requests of the trace. *)
Theorem fetchAllCandidates_request_bound
    (n : nat) (pages : list ApiResponse) (evss : list (list event)) (n' : nat) :
  serves_pages nodeFetch apiKey 1 n pages evss n' ->
  exists evs : list event,
    (forall fuel : nat, (length pages <= fuel)%nat ->
       fetchAllCandidates nodeFetch fuel apiKey n =
       Some (Return (concat (map page_rows pages)), n', evs)) /\
    n' = (n + length (requests evs))%nat /\
    (length pages <= length (requests evs) <= 4 * length pages)%nat.
Proof.
  intros Hchain.
  destruct (fetchAll_loop_run nodeFetch apiKey _ _ _ _ _ Hchain [] None)
    as (evs & Hrun & Hreq & _).
  destruct (serves_pages_cost _ _ _ _ _ Hchain) as [Hn Hlen].
  exists evs. rewrite Hreq. split; [exact Hrun|]. split; [exact Hn | exact Hlen].
Qed.

End Cost.

Lemma fetchAllCandidates_request_bound_witness :
  exists evs : list event,
    (forall fuel : nat, (2 <= fuel)%nat ->
       fetchAllCandidates
         (scripted [rate_limited; served sample_page_1; served sample_page_2])
         fuel (lit "key") 0%nat =
       Some (Return (concat (map page_rows [sample_page_1; sample_page_2])), 3%nat, evs)) /\
    3%nat = (0 + length (requests evs))%nat.
Proof.
  destruct (fetchAllCandidates_request_bound
              (scripted [rate_limited; served sample_page_1; served sample_page_2])
              (lit "key") 0%nat [sample_page_1; sample_page_2]
              [ passes (lit "key") (page_url 1) 0 2; passes (lit "key") (page_url 2) 0 1 ]
              3%nat)
    as (evs & Hrun & Hn & _).
  - apply serves_more with (n' := 2%nat); [reflexivity | reflexivity |].
    apply serves_last; reflexivity.
  - exists evs. split; [exact Hrun | exact Hn].
Defined.

(** ** The lines of the document *)

Lemma split_length (c : N) (s : jsstring) :
  length (split c s) = S (occurrences c s).
Proof.
  induction s as [|x s IH]; [reflexivity|].
  rewrite occurrences_cons. cbn [split].
  destruct (N.eqb_spec x c) as [->|Hne].
  - rewrite decide_True by reflexivity. cbn [length]. rewrite IH. reflexivity.
  - rewrite decide_False by exact Hne.
    destruct (split c s) as [|l ls]; [discriminate|]. cbn [length] in *. lia.
Qed.

Lemma record_breaks_plain (f : jsstring) :
  needs_quotes f = false ->
  forall (quoted : bool) (rest : jsstring),
    record_breaks quoted (f ++ rest) = record_breaks quoted rest.
Proof.
  induction f as [|x f IH]; intros Hplain quoted rest; [reflexivity|].
  apply needs_quotes_cons in Hplain as (Hq & _ & Hn & Hplain).
  cbn [app record_breaks]. rewrite Hq, Hn. cbn [andb]. apply IH, Hplain.
Qed.

Lemma record_breaks_doubled (f rest : jsstring) :
  record_breaks true (double_quotes f ++ rest) = record_breaks true rest.
Proof.
  induction f as [|x f IH]; [reflexivity|].
  unfold double_quotes. cbn [flat_map]. fold (double_quotes f).
  destruct (decide (x = DQUOTE)) as [->|Hne].
  - cbn [app record_breaks]. rewrite N.eqb_refl. cbn [negb]. exact IH.
  - apply N.eqb_neq in Hne. cbn [app record_breaks]. rewrite Hne.
    rewrite andb_false_r. exact IH.
Qed.

Lemma record_breaks_field (f rest : jsstring) :
  record_breaks false (escapeField (JString f) ++ rest) = record_breaks false rest.
Proof.
  unfold escapeField. cbn [to_str]. destruct (needs_quotes f) eqn:E.
  - rewrite replace_all_double, <- !app_assoc. cbn [app record_breaks].
    rewrite N.eqb_refl. cbn [negb]. rewrite record_breaks_doubled.
    cbn [app record_breaks]. rewrite N.eqb_refl. reflexivity.
  - apply record_breaks_plain, E.
Qed.

Lemma record_breaks_record (fields : list jsstring) (rest : jsstring) :
  record_breaks false (encode_record fields ++ rest) = record_breaks false rest.
Proof.
  induction fields as [|f fields IH]; [reflexivity|].
  destruct fields as [|g fields].
  - apply record_breaks_field.
  - rewrite encode_record_cons, <- !app_assoc, record_breaks_field.
    cbn [app record_breaks]. exact IH.
Qed.

Lemma record_breaks_records (records : list (list jsstring)) :
  record_breaks false (flat_map (fun line => [NEWLINE] ++ line)
                                (map encode_record records))
  = length records.
Proof.
  set (g := fun line : jsstring => [NEWLINE] ++ line).
  induction records as [|fields records IH]; [reflexivity|].
  cbn [map flat_map]. unfold g at 1. rewrite <- app_assoc.
  cbn [app record_breaks length].
  rewrite record_breaks_record, IH. reflexivity.
Qed.

Lemma record_breaks_document (rows : list CsvRow) :
  record_breaks false (convertToCSV rows) = length rows.
Proof.
  unfold convertToCSV. rewrite csvLines_encode. cbn [map].
  rewrite join_cons. cbn [app record_breaks].
  rewrite record_breaks_record, record_breaks_records. apply length_map.
Qed.

(** C9, as amended.  The document is the byte-order mark, then the
    header line and one record line per row, in order, joined by single
    line feeds; a row's line is its six escaped fields joined by
    commas, and the encoder adds no carriage return.  Counted at the
    line feeds outside double-quoted fields, which are the ones that
    separate records, the document has [1 + n] lines for [n] rows.
    Split at every line feed it has [1 + n] lines and one more for each
    line feed that a field holds, since a quoted field keeps its line
    feeds. *)
Theorem convertToCSV_record_lines (rows : list CsvRow) :
  convertToCSV rows = [BOM] ++ join [NEWLINE] (header_line :: map row_line rows) /\
  (forall row : CsvRow,
     row_line row =
     join (lit ",") (map (fun f => escapeField (JString f)) (row_fields row))) /\
  record_lines (convertToCSV rows) = (1 + length rows)%nat /\
  length (split NEWLINE (convertToCSV rows))
    = (1 + length rows + embedded NEWLINE rows)%nat /\
  occurrences CR (convertToCSV rows) = embedded CR rows.
Proof.
  split; [unfold convertToCSV; rewrite csvLines_spec; reflexivity|].
  split; [exact row_line_fields|].
  split; [unfold record_lines; rewrite record_breaks_document; reflexivity|].
  split.
  - rewrite split_length, occurrences_document by (try discriminate; reflexivity).
    change (occurrences NEWLINE [NEWLINE]) with 1%nat. lia.
  - rewrite occurrences_document by (try discriminate; reflexivity).
    change (occurrences CR [NEWLINE]) with 0%nat. lia.
Qed.

(** C9, as stated, fails: one row whose first name holds a line feed
    gives a document of three lines, not two. *)
Lemma convertToCSV_line_count_counterexample :
  length (split NEWLINE (convertToCSV [newline_row])) = 3%nat /\
  length (split NEWLINE (convertToCSV [newline_row])) <> (1 + length [newline_row])%nat.
Proof. split; [vm_compute; reflexivity | vm_compute; discriminate]. Qed.

(** ** Reading the document back, strictly *)

Lemma rfc_run_ends (st : csv_state) (cur : jsstring) (rec : list jsstring)
    (recs : list (list jsstring)) (rest : jsstring) :
  st <> Quoted -> ends_field rest ->
  rfc_run st cur rec recs rest = rfc_continue cur rec recs rest.
Proof.
  intros Hst Hrest. destruct rest as [|c r].
  - destruct st; [reflexivity | reflexivity | congruence | reflexivity].
  - destruct Hrest as [-> | ->]; destruct st; try congruence; reflexivity.
Qed.

Lemma rfc_run_plain (f : jsstring) :
  forall (st : csv_state) (cur : jsstring) (rec : list jsstring)
         (recs : list (list jsstring)) (rest : jsstring),
    st = FieldStart \/ st = Plain ->
    needs_quotes f = false -> CR ∉ f -> ends_field rest ->
    rfc_run st cur rec recs (f ++ rest) = rfc_continue (cur ++ f) rec recs rest.
Proof.
  induction f as [|x f IH]; intros st cur rec recs rest Hst Hplain Hcr Hrest.
  - rewrite app_nil_r. apply rfc_run_ends; [|exact Hrest].
    destruct Hst as [-> | ->]; discriminate.
  - apply needs_quotes_cons in Hplain as (Hq & Hc & Hn & Hplain).
    apply not_elem_of_cons in Hcr as [Hx' Hcr].
    assert ((x =? CR) = false) as Hx by (apply N.eqb_neq; congruence).
    replace (cur ++ x :: f) with ((cur ++ [x]) ++ f) by (rewrite <- app_assoc; reflexivity).
    rewrite <- (IH Plain (cur ++ [x]) rec recs rest (or_intror eq_refl) Hplain Hcr Hrest).
    destruct Hst as [-> | ->]; cbn [app rfc_run]; rewrite Hq, Hc, Hn, Hx; reflexivity.
Qed.

Lemma rfc_run_quoted (f : jsstring) :
  forall (cur : jsstring) (rec : list jsstring)
         (recs : list (list jsstring)) (rest : jsstring),
    ends_field rest ->
    rfc_run Quoted cur rec recs (double_quotes f ++ [DQUOTE] ++ rest)
    = rfc_continue (cur ++ f) rec recs rest.
Proof.
  induction f as [|x f IH]; intros cur rec recs rest Hrest.
  - rewrite app_nil_r. cbn [double_quotes flat_map app rfc_run].
    rewrite N.eqb_refl. apply rfc_run_ends; [discriminate | exact Hrest].
  - replace (cur ++ x :: f) with ((cur ++ [x]) ++ f) by (rewrite <- app_assoc; reflexivity).
    rewrite <- (IH (cur ++ [x]) rec recs rest Hrest).
    unfold double_quotes at 1. cbn [flat_map]. fold (double_quotes f).
    destruct (decide (x = DQUOTE)) as [->|Hne].
    + cbn [app rfc_run]. rewrite N.eqb_refl. reflexivity.
    + apply N.eqb_neq in Hne. cbn [app rfc_run]. rewrite Hne. reflexivity.
Qed.

Lemma rfc_run_field (f : jsstring) (rec : list jsstring)
    (recs : list (list jsstring)) (rest : jsstring) :
  cr_is_quoted f -> ends_field rest ->
  rfc_run FieldStart [] rec recs (escapeField (JString f) ++ rest)
  = rfc_continue f rec recs rest.
Proof.
  intros Hcr Hrest. unfold escapeField. cbn [to_str].
  destruct (needs_quotes f) eqn:E.
  - rewrite replace_all_double, <- !app_assoc. cbn [app rfc_run].
    rewrite N.eqb_refl. apply (rfc_run_quoted f [] rec recs rest Hrest).
  - apply (rfc_run_plain f FieldStart [] rec recs rest (or_introl eq_refl) E); [|exact Hrest].
    intros Hin. apply Hcr, needs_quotes_spec in Hin. congruence.
Qed.

Lemma rfc_run_record (fs : list jsstring) :
  forall (f : jsstring) (rec : list jsstring) (recs : list (list jsstring)),
    Forall cr_is_quoted (f :: fs) ->
    rfc_run FieldStart [] rec recs (encode_record (f :: fs))
      = Some (recs ++ [rec ++ f :: fs]) /\
    forall r : jsstring,
      rfc_run FieldStart [] rec recs (encode_record (f :: fs) ++ NEWLINE :: r)
      = rfc_run FieldStart [] [] (recs ++ [rec ++ f :: fs]) r.
Proof.
  induction fs as [|g fs IH]; intros f rec recs Hall;
    apply Forall_cons in Hall as [Hf Hall].
  - change (encode_record [f]) with (escapeField (JString f)). split.
    + rewrite <- (app_nil_r (escapeField (JString f))).
      rewrite rfc_run_field by (exact Hf || exact I). reflexivity.
    + intros r. rewrite rfc_run_field by (exact Hf || (right; reflexivity)). reflexivity.
  - rewrite encode_record_cons.
    destruct (IH g (rec ++ [f]) recs Hall) as [IHend IHnl].
    replace (rec ++ f :: g :: fs) with ((rec ++ [f]) ++ g :: fs)
      by (rewrite <- app_assoc; reflexivity).
    split.
    + rewrite rfc_run_field by (exact Hf || (left; reflexivity)). exact IHend.
    + intros r.
      rewrite <- (app_assoc (escapeField (JString f))). cbn [app].
      rewrite rfc_run_field by (exact Hf || (left; reflexivity)). apply IHnl.
Qed.

Lemma rfc_run_records (records : list (list jsstring)) :
  forall recs : list (list jsstring),
    records <> [] ->
    Forall (fun fields => fields <> [] /\ Forall cr_is_quoted fields) records ->
    rfc_run FieldStart [] [] recs (join [NEWLINE] (map encode_record records))
    = Some (recs ++ records).
Proof.
  induction records as [|fields records IH]; intros recs Hne Hall; [congruence|].
  apply Forall_cons in Hall as [[Hfields Hcr] Hall].
  destruct fields as [|f fs]; [congruence|].
  destruct (rfc_run_record fs f [] recs Hcr) as [Hend Hnl].
  destruct records as [|fields' records].
  - exact Hend.
  - change (join [NEWLINE] (map encode_record ((f :: fs) :: fields' :: records)))
      with (encode_record (f :: fs) ++ NEWLINE
              :: join [NEWLINE] (map encode_record (fields' :: records))).
    rewrite Hnl, IH by (congruence || exact Hall).
    rewrite <- app_assoc. reflexivity.
Qed.

Lemma headers_hold_no_cr : Forall cr_is_quoted headers.
Proof.
  unfold headers.
  repeat (apply Forall_cons; split; [|]); try apply Forall_nil_2;
    intros Hin; exfalso; revert Hin;
    apply (bool_decide_unpack (CR ∉ _)); vm_compute; exact I.
Qed.

(** X1.  Read back by the strict RFC 4180 reader, the document gives
    the header names and then, row by row and in order, the six fields
    of every row exactly as they were, whatever commas, double quotes
    and line feeds they hold, provided that no field holds a carriage
    return without also holding a comma, a double quote or a line feed:
    such a field is the one kind the encoder leaves unquoted although
    the RFC does not allow it bare. *)
Theorem convertToCSV_read_back (rows : list CsvRow) :
  (forall (row : CsvRow) (f : jsstring),
     row ∈ rows -> f ∈ row_fields row -> cr_is_quoted f) ->
  rfc4180_read (convertToCSV rows) =
  Some (headers :: map (fun row =>
                          [ candidate_id row; first_name row; last_name row; email row;
                            job_application_id row; job_application_created_at row ])
                       rows).
Proof.
  intros Hcr. unfold convertToCSV. rewrite csvLines_encode.
  cbn [app rfc4180_read]. rewrite N.eqb_refl.
  apply (rfc_run_records (headers :: map row_fields rows) []); [discriminate|].
  apply Forall_cons. split; [split; [discriminate | exact headers_hold_no_cr]|].
  apply Forall_forall. intros fields Hin.
  apply list_elem_of_fmap in Hin as (row & -> & Hrow). split; [discriminate|].
  apply Forall_forall. intros f Hf. apply (Hcr row f Hrow Hf).
Qed.

Lemma convertToCSV_read_back_witness :
  rfc4180_read (convertToCSV [sample_row; newline_row]) =
  Some [headers; row_fields sample_row; row_fields newline_row].
Proof.
  apply (convertToCSV_read_back [sample_row; newline_row]).
  intros row f Hrow Hf Hin. exfalso. revert Hin.
  repeat (apply elem_of_cons in Hrow as [->|Hrow]);
    [| | apply elem_of_nil in Hrow; contradiction];
    cbn [row_fields sample_row newline_row candidate_id first_name last_name email
         job_application_id job_application_created_at] in Hf;
    repeat (apply elem_of_cons in Hf as [->|Hf]);
    try (apply elem_of_nil in Hf; contradiction);
    apply (bool_decide_unpack (CR ∉ _)); vm_compute; exact I.
Defined.

(** The proviso is needed: a bare carriage return goes out unquoted, and
    the strict reader refuses the document. *)
Example bare_carriage_return :
  escapeField (JString (first_name cr_row)) = first_name cr_row /\
  rfc4180_read (convertToCSV [cr_row]) = None /\
  parse_csv (convertToCSV [cr_row]) = Some [headers; row_fields cr_row].
Proof. repeat split; vm_compute; reflexivity. Qed.

(** ** The page fetcher against a library call that can throw *)

Lemma passes_S (apiKey url : jsstring) (attempt count : nat) :
  passes apiKey url attempt (S count)
  = (wait_before attempt ++ [EvRequest url (request_headers apiKey)])
      ++ passes apiKey url (S attempt) count.
Proof. reflexivity. Qed.

Section RawFetcher.

Variable refuse : jsstring -> list (jsstring * jsstring) -> option error.
Variable service : nat -> jsstring -> list (jsstring * jsstring) -> fetched.
Variables apiKey url : jsstring.

Lemma attempt_loop_raw_refused (remaining : nat) (lastError : option error)
    (n : nat) (e : error) :
  refuse url (request_headers apiKey) = Some e ->
  attempt_loop_raw refuse service (S remaining) 0 lastError apiKey url n
  = (Throw e, n, []).
Proof.
  intros Href. cbn [attempt_loop_raw]. unfold bind, ret, fetch_raw.
  cbn. rewrite Href. reflexivity.
Qed.

Lemma attempt_loop_raw_failed (remaining attempt : nat) (lastError : option error)
    (n : nat) (e : error) :
  refuse url (request_headers apiKey) = None ->
  service n url (request_headers apiKey) = Failed e ->
  attempt_loop_raw refuse service (S remaining) attempt lastError apiKey url n
  = (Throw e, S n, wait_before attempt ++ [EvRequest url (request_headers apiKey)]).
Proof.
  intros Href Hfail. cbn [attempt_loop_raw].
  unfold bind, emit, ret, fetch_raw, wait_before.
  destruct (0 <? attempt)%nat; cbn [app]; rewrite Href, Hfail; reflexivity.
Qed.

Lemma attempt_loop_raw_retry (remaining attempt : nat) (lastError : option error)
    (n : nat) (response : RawResponse) :
  refuse url (request_headers apiKey) = None ->
  service n url (request_headers apiKey) = Received response ->
  raw_status response = 429 ->
  attempt_loop_raw refuse service (S remaining) attempt lastError apiKey url n =
  let '(c, n', evs) :=
    attempt_loop_raw refuse service remaining (S attempt) (Some RateLimitExceeded)
                     apiKey url (S n) in
  (c, n', (wait_before attempt ++ [EvRequest url (request_headers apiKey)]) ++ evs).
Proof.
  intros Href Hrec H429. cbn [attempt_loop_raw].
  unfold bind, emit, ret, fetch_raw, wait_before.
  destruct (0 <? attempt)%nat; cbn [app]; rewrite Href, Hrec, H429; cbn;
    destruct (attempt_loop_raw refuse service remaining (S attempt) _ apiKey url (S n))
      as [[c n'] evs]; reflexivity.
Qed.

Lemma attempt_loop_raw_settle (remaining attempt : nat) (lastError : option error)
    (n : nat) (response : RawResponse) :
  refuse url (request_headers apiKey) = None ->
  service n url (request_headers apiKey) = Received response ->
  raw_status response <> 429 ->
  attempt_loop_raw refuse service (S remaining) attempt lastError apiKey url n
  = (settle_raw response, S n,
     wait_before attempt ++ [EvRequest url (request_headers apiKey)]).
Proof.
  intros Href Hrec Hne. apply N.eqb_neq in Hne. cbn [attempt_loop_raw].
  unfold bind, emit, ret, throw, fetch_raw, wait_before, settle_raw.
  destruct (0 <? attempt)%nat; cbn [app]; rewrite Href, Hrec, Hne;
    destruct (raw_ok response); cbn [negb];
    try (destruct (raw_json response); cbn; rewrite ?app_nil_r; reflexivity);
    destruct (raw_status response =? 401); try reflexivity;
    destruct (raw_status response =? 403); reflexivity.
Qed.

(** A call that the library does not refuse ends after one to
    [remaining] passes, in one of three ways. *)
Lemma attempt_loop_raw_passes (remaining : nat) :
  refuse url (request_headers apiKey) = None ->
  forall (attempt : nat) (lastError : option error) (n : nat),
  exists (k : nat) (c : completion ApiResponse),
    (1 <= S k <= S remaining)%nat /\
    attempt_loop_raw refuse service (S remaining) attempt lastError apiKey url n
      = (c, (n + S k)%nat, passes apiKey url attempt (S k)) /\
    (forall i : nat, (i < k)%nat ->
       is_rate_limited (service (n + i)%nat url (request_headers apiKey))) /\
    ((k = remaining /\
      is_rate_limited (service (n + k)%nat url (request_headers apiKey)) /\
      c = Throw RateLimitExceeded)
     \/
     (exists response : RawResponse,
        service (n + k)%nat url (request_headers apiKey) = Received response /\
        raw_status response <> 429 /\ c = settle_raw response)
     \/
     (exists e : error,
        service (n + k)%nat url (request_headers apiKey) = Failed e /\ c = Throw e)).
Proof.
  intros Href. induction remaining as [|remaining IH]; intros attempt lastError n.
  - destruct (service n url (request_headers apiKey)) as [response|e] eqn:Hsrv.
    + destruct (decide (raw_status response = 429)) as [H429|Hne].
      * exists 0%nat, (Throw RateLimitExceeded). split; [lia|]. split; [|split].
        -- rewrite (attempt_loop_raw_retry _ _ _ _ _ Href Hsrv H429).
           cbn. rewrite Nat.add_1_r, !app_nil_r. reflexivity.
        -- intros i Hi. lia.
        -- left. rewrite Nat.add_0_r, Hsrv. repeat split. exact H429.
      * exists 0%nat, (settle_raw response). split; [lia|]. split; [|split].
        -- rewrite (attempt_loop_raw_settle _ _ _ _ _ Href Hsrv Hne).
           rewrite Nat.add_1_r. cbn. rewrite !app_nil_r. reflexivity.
        -- intros i Hi. lia.
        -- right; left. exists response. rewrite Nat.add_0_r. auto.
    + exists 0%nat, (Throw e). split; [lia|]. split; [|split].
      * rewrite (attempt_loop_raw_failed _ _ _ _ _ Href Hsrv).
        rewrite Nat.add_1_r. cbn. rewrite !app_nil_r. reflexivity.
      * intros i Hi. lia.
      * right; right. exists e. rewrite Nat.add_0_r. auto.
  - destruct (service n url (request_headers apiKey)) as [response|e] eqn:Hsrv.
    + destruct (decide (raw_status response = 429)) as [H429|Hne].
      * destruct (IH (S attempt) (Some RateLimitExceeded) (S n))
          as (k & c & Hk & Hrun & Hlim & Hend).
        exists (S k), c. split; [lia|]. split; [|split].
        -- rewrite (attempt_loop_raw_retry _ _ _ _ _ Href Hsrv H429), Hrun.
           rewrite (passes_S apiKey url attempt (S k)).
           replace (S n + S k)%nat with (n + S (S k))%nat by lia. reflexivity.
        -- intros [|i] Hi.
           ++ rewrite Nat.add_0_r, Hsrv. exact H429.
           ++ replace (n + S i)%nat with (S n + i)%nat by lia. apply Hlim. lia.
        -- replace (n + S k)%nat with (S n + k)%nat by lia.
           destruct Hend as [(-> & Hr & ->) | [Hend | Hend]];
             [left; repeat split; exact Hr | right; left; exact Hend
              | right; right; exact Hend].
      * exists 0%nat, (settle_raw response). split; [lia|]. split; [|split].
        -- rewrite (attempt_loop_raw_settle _ _ _ _ _ Href Hsrv Hne).
           rewrite Nat.add_1_r. cbn. rewrite !app_nil_r. reflexivity.
        -- intros i Hi. lia.
        -- right; left. exists response. rewrite Nat.add_0_r. auto.
    + exists 0%nat, (Throw e). split; [lia|]. split; [|split].
      * rewrite (attempt_loop_raw_failed _ _ _ _ _ Href Hsrv).
        rewrite Nat.add_1_r. cbn. rewrite !app_nil_r. reflexivity.
      * intros i Hi. lia.
      * right; right. exists e. rewrite Nat.add_0_r. auto.
Qed.

End RawFetcher.

(** When the library refuses nothing, every request is answered and
    every body parses, the fetcher is the one of the first model. *)
Lemma attempt_loop_raw_total
    (nodeFetch : nat -> jsstring -> list (jsstring * jsstring) -> Response)
    (apiKey url : jsstring) (remaining : nat) :
  forall (attempt : nat) (lastError : option error) (n : nat),
    attempt_loop_raw accepts_all (always_answers nodeFetch) remaining attempt lastError
                     apiKey url n
    = attempt_loop nodeFetch remaining attempt lastError apiKey url n.
Proof.
  induction remaining as [|remaining IH]; intros attempt lastError n; [reflexivity|].
  destruct (decide (status (nodeFetch n url (request_headers apiKey)) = 429)) as [H429|Hne].
  - rewrite (attempt_loop_raw_retry accepts_all (always_answers nodeFetch) apiKey url
               remaining attempt lastError n _ eq_refl eq_refl H429).
    rewrite (attempt_loop_retry nodeFetch apiKey url remaining attempt lastError n H429).
    rewrite IH. reflexivity.
  - rewrite (attempt_loop_raw_settle accepts_all (always_answers nodeFetch) apiKey url
               remaining attempt lastError n _ eq_refl eq_refl Hne).
    rewrite (attempt_loop_settle nodeFetch apiKey url remaining attempt lastError n Hne).
    reflexivity.
Qed.

Lemma fetchCandidatesPage_raw_total
    (nodeFetch : nat -> jsstring -> list (jsstring * jsstring) -> Response)
    (apiKey : jsstring) (pageNumber : N) (n : nat) :
  fetchCandidatesPage_raw accepts_all (always_answers nodeFetch) apiKey pageNumber n
  = fetchCandidatesPage nodeFetch apiKey pageNumber n.
Proof. apply attempt_loop_raw_total. Qed.

Section RawFetcherFacts.

Variable refuse : jsstring -> list (jsstring * jsstring) -> option error.
Variable service : nat -> jsstring -> list (jsstring * jsstring) -> fetched.
Variable apiKey : jsstring.
Variable pageNumber : N.

(** X7.  Whatever the library and the service do, one call of the page
    fetcher sends at most four requests, all to the page's URL with the
    key in the [Authorization] header; it sends at least one unless the
    library refuses the request, and then it sends none and throws the
    library's error at once.  It waits 1000, 2000 and 4000 ms before
    the second, third and fourth request and never otherwise, so at
    most 7000 ms in all, and then ends. *)
Theorem fetchCandidatesPage_bounded (n : nat) :
  exists (k : nat) (c : completion ApiResponse) (evs : list event),
    fetchCandidatesPage_raw refuse service apiKey pageNumber n = (c, (n + k)%nat, evs) /\
    (k <= 4)%nat /\
    (refuse (page_url pageNumber) (request_headers apiKey) = None -> (1 <= k)%nat) /\
    (forall e : error,
       refuse (page_url pageNumber) (request_headers apiKey) = Some e ->
       k = 0%nat /\ c = Throw e /\ evs = []) /\
    sent_requests (map Core evs)
      = replicate k (page_url pageNumber,
                     [ (lit "Authorization", lit "Token token=" ++ apiKey);
                       (lit "X-Api-Version", lit "20210218");
                       (lit "Content-Type", lit "application/vnd.api+json") ]) /\
    sleeps evs = take (k - 1) [1000; 2000; 4000] /\
    foldr N.add 0 (sleeps evs) <= 7000.
Proof.
  destruct (refuse (page_url pageNumber) (request_headers apiKey)) as [e|] eqn:Href.
  - exists 0%nat, (Throw e), [].
    split; [rewrite Nat.add_0_r; apply attempt_loop_raw_refused, Href|].
    split; [lia|]. split; [discriminate|].
    split; [intros e' [= <-]; repeat split|].
    split; [reflexivity|]. split; [reflexivity|]. vm_compute. discriminate.
  - destruct (attempt_loop_raw_passes refuse service apiKey (page_url pageNumber) 3
                Href 0 None n) as (k & c & Hk & Hrun & _).
    exists (S k), c, (passes apiKey (page_url pageNumber) 0 (S k)).
    split; [exact Hrun|]. split; [lia|]. split; [intros _; lia|].
    split; [discriminate|].
    destruct k as [|[|[|[|k]]]]; try lia;
      (split; [reflexivity|]); (split; [reflexivity|]); vm_compute; discriminate.
Qed.

(** X8.  Whatever the library and the service do, a call ends in one of
    these ways, and after the last of its requests.  The library refuses
    the request, and its error is thrown with nothing sent.  The last
    request fails, and its error is thrown.  The last response is a
    success, and the call gives what parsing its body gives: the page,
    or the parser's error.  Four responses in a row were 429, and the
    rate-limit error is thrown.  The last response is neither a success
    nor a 429, and the invalid-key error (401), the access-denied error
    (403) or the error carrying the status is thrown. *)
Theorem fetchCandidatesPage_outcomes (n : nat) :
  exists (k : nat) (c : completion ApiResponse) (evs : list event),
    fetchCandidatesPage_raw refuse service apiKey pageNumber n = (c, (n + k)%nat, evs) /\
    ((exists e : error,
        refuse (page_url pageNumber) (request_headers apiKey) = Some e /\
        k = 0%nat /\ c = Throw e)
     \/
     (refuse (page_url pageNumber) (request_headers apiKey) = None /\
      exists j : nat, k = S j /\
        ((exists e : error,
            outcome service apiKey pageNumber (n + j) = Failed e /\ c = Throw e)
         \/
         (exists response : RawResponse,
            outcome service apiKey pageNumber (n + j) = Received response /\
            raw_ok response = true /\ c = raw_json response)
         \/
         (j = 3%nat /\ c = Throw (Error (lit "Rate limited")) /\
          forall i : nat, (i < 4)%nat ->
            is_rate_limited (outcome service apiKey pageNumber (n + i)))
         \/
         (exists response : RawResponse,
            outcome service apiKey pageNumber (n + j) = Received response /\
            raw_ok response = false /\ raw_status response <> 429 /\
            c = Throw (Error
                  (if raw_status response =? 401 then lit "Invalid API key"
                   else if raw_status response =? 403 then lit "Access denied"
                   else lit "API error: " ++ decimal (raw_status response))))))).
Proof.
  destruct (refuse (page_url pageNumber) (request_headers apiKey)) as [e|] eqn:Href.
  - exists 0%nat, (Throw e), [].
    split; [rewrite Nat.add_0_r; apply attempt_loop_raw_refused, Href|].
    left. exists e. repeat split.
  - destruct (attempt_loop_raw_passes refuse service apiKey (page_url pageNumber) 3
                Href 0 None n) as (k & c & Hk & Hrun & Hlim & Hend).
    exists (S k), c, (passes apiKey (page_url pageNumber) 0 (S k)).
    split; [exact Hrun|]. right. split; [reflexivity|]. exists k. split; [reflexivity|].
    unfold outcome.
    destruct Hend as [(-> & Hr & ->) | [(response & Hsrv & Hne & ->) | (e & Hsrv & ->)]].
    + right; right; left. repeat split.
      intros i Hi. assert (i = 3 \/ i < 3)%nat as [->|Hlt] by lia;
        [exact Hr | apply Hlim, Hlt].
    + unfold settle_raw. destruct (raw_ok response) eqn:Hok.
      * right; left. exists response. auto.
      * right; right; right. exists response.
        split; [exact Hsrv|]. split; [exact Hok|]. split; [exact Hne|].
        destruct (raw_status response =? 401); [reflexivity|].
        destruct (raw_status response =? 403); reflexivity.
    + left. exists e. auto.
Qed.

End RawFetcherFacts.

Lemma fetchCandidatesPage_bounded_witness :
  (exists (k : nat) (c : completion ApiResponse) (evs : list event),
     fetchCandidatesPage_raw accepts_all not_json (lit "key") 1 0%nat
       = (c, (0 + k)%nat, evs) /\ (1 <= k)%nat) /\
  (exists (k : nat) (c : completion ApiResponse) (evs : list event),
     fetchCandidatesPage_raw refuses_all not_json (lit "key") 1 0%nat
       = (c, (0 + k)%nat, evs) /\ k = 0%nat).
Proof.
  split.
  - destruct (fetchCandidatesPage_bounded accepts_all not_json (lit "key") 1 0%nat)
      as (k & c & evs & Hrun & _ & Hone & _).
    exists k, c, evs. split; [exact Hrun | apply Hone; reflexivity].
  - destruct (fetchCandidatesPage_bounded refuses_all not_json (lit "key") 1 0%nat)
      as (k & c & evs & Hrun & _ & _ & Hnone & _).
    exists k, c, evs. split; [exact Hrun|].
    apply (Hnone (Error (lit "Invalid character in header content"))). reflexivity.
Defined.

(** A success whose body is not JSON ends the call with the parser's
    error, and a key the library refuses with the library's, before any
    request. *)
Example body_not_json :
  fetchCandidatesPage_raw accepts_all not_json (lit "key") 1 0%nat
  = (Throw (Error (lit "invalid json response body")), 1%nat,
     [EvRequest (page_url 1) (request_headers (lit "key"))]) /\
  fetchCandidatesPage_raw refuses_all not_json (lit "key") 1 0%nat
  = (Throw (Error (lit "Invalid character in header content")), 0%nat, []).
Proof. split; vm_compute; reflexivity. Qed.
